(** * core-js-101, 06-objects-tasks.js: the rectangle factory and the
      CSS selector builder

    The builder is a JavaScript object literal whose methods copy the receiver
    with the spread operator or assign to the receiver's fields.  Objects are
    therefore kept in a store addressed by references; a method is a
    computation over the store that either returns normally or throws. *)

From Stdlib Require Import ZArith PrimFloat.
From stdpp Require Import base list strings option.


(** ** The JavaScript built-ins the source calls *)

Module JS.

(** [new Error(message)] *)
Inductive Error : Type := mkError (message : string).

Definition message (e : Error) : string := let 'mkError m := e in m.

(** [arr.indexOf(x)]: position of the first element equal to [x], or -1. *)
Fixpoint indexOfFrom (arr : list string) (x : string) (i : Z) : Z :=
  match arr with
  | [] => (-1)%Z
  | y :: rest => if String.eqb y x then i else indexOfFrom rest x (i + 1)%Z
  end.

Definition indexOf (arr : list string) (x : string) : Z := indexOfFrom arr x 0.

(** [arr.slice(start)]: a negative [start] counts from the end, and the
    start is clamped to the array. *)
Definition slice {A} (arr : list A) (start : Z) : list A :=
  let len := Z.of_nat (List.length arr) in
  let k := if (start <? 0)%Z then Z.max (len + start) 0 else Z.min start len in
  drop (Z.to_nat k) arr.

(** [arr.includes(x)] *)
Definition includes (arr : list string) (x : string) : bool :=
  existsb (String.eqb x) arr.

(** [arr.some(p)] *)
Definition some {A} (arr : list A) (p : A -> bool) : bool := existsb p arr.

End JS.

(** ** Rectangle *)

Record RectangleObject : Type := mkRectangle { width : float; height : float }.

(** [function Rectangle(width, height) { return { width, height, getArea() {...} } }] *)
Definition Rectangle (width height : float) : RectangleObject :=
  {| width := width; height := height |}.

(** [getArea() { return this.width * this.height; }]; a JavaScript number is
    an IEEE 754 binary64 value, as is a primitive [float]. *)
Definition getArea (this : RectangleObject) : float :=
  (width this * height this)%float.

(** ** Builder objects and the store *)

(** The data properties of a builder object (its methods are never
    reassigned and are not represented).  The source never updates an array
    in place: every assignment to [currentOrder] stores a new array, and
    [rightOrder] is only read.  The two arrays are therefore kept as values. *)
Record Selector : Type := mkSelector {
  result : string;
  isSelectorHaveElement : bool;
  isSelectorHaveId : bool;
  isSelectorHavePseudoElement : bool;
  rightOrder : list string;
  currentOrder : list string
}.

Definition set_result (v : string) (o : Selector) : Selector :=
  mkSelector v (isSelectorHaveElement o) (isSelectorHaveId o)
             (isSelectorHavePseudoElement o) (rightOrder o) (currentOrder o).

Definition set_isSelectorHaveElement (v : bool) (o : Selector) : Selector :=
  mkSelector (result o) v (isSelectorHaveId o)
             (isSelectorHavePseudoElement o) (rightOrder o) (currentOrder o).

Definition set_isSelectorHaveId (v : bool) (o : Selector) : Selector :=
  mkSelector (result o) (isSelectorHaveElement o) v
             (isSelectorHavePseudoElement o) (rightOrder o) (currentOrder o).

Definition set_isSelectorHavePseudoElement (v : bool) (o : Selector) : Selector :=
  mkSelector (result o) (isSelectorHaveElement o) (isSelectorHaveId o)
             v (rightOrder o) (currentOrder o).

Definition set_currentOrder (v : list string) (o : Selector) : Selector :=
  mkSelector (result o) (isSelectorHaveElement o) (isSelectorHaveId o)
             (isSelectorHavePseudoElement o) (rightOrder o) v.

(** A reference is an index into the store; objects are never freed. *)
Abbreviation ref := nat.
Abbreviation store := (list Selector).

(** How a call ends. *)
Inductive completion (A : Type) : Type :=
| Normal (a : A)
| Throw (e : JS.Error).
Arguments Normal {A} a.
Arguments Throw {A} e.

(** A computation over the store.  [None] stands for a call through a
    reference that holds no object, which no JavaScript program performs. *)
Definition Exec (A : Type) : Type := store -> option (completion A * store).

Definition ret {A} (a : A) : Exec A := fun h => Some (Normal a, h).

(** Sequencing: a throw skips the rest. *)
Definition bind {A B} (m : Exec A) (k : A -> Exec B) : Exec B :=
  fun h =>
    match m h with
    | Some (Normal a, h') => k a h'
    | Some (Throw e, h') => Some (Throw e, h')
    | None => None
    end.

Declare Scope exec_scope.
Delimit Scope exec_scope with exec.
Notation "x ← y ; z" := (bind y (fun x => z))
  (at level 20, y at level 100, z at level 200, only parsing) : exec_scope.
Notation "x ;; z" := (bind x (fun _ => z))
  (at level 100, z at level 200, only parsing, right associativity) : exec_scope.

Definition throw {A} (e : JS.Error) : Exec A := fun h => Some (Throw e, h).

(** [o.f] *)
Definition get {A} (f : Selector -> A) (o : ref) : Exec A :=
  fun h => match h !! o with
           | Some x => Some (Normal (f x), h)
           | None => None
           end.

(** [o.f = v] *)
Definition assign (o : ref) (upd : Selector -> Selector) : Exec unit :=
  fun h => match h !! o with
           | Some x => Some (Normal tt, <[o := upd x]> h)
           | None => None
           end.

(** [{ ...o }]: a new object with the properties of [o]. *)
Definition spread (o : ref) : Exec ref :=
  fun h => match h !! o with
           | Some x => Some (Normal (List.length h), h ++ [x])
           | None => None
           end.

(** ** cssSelectorBuilder *)

Module cssSelectorBuilder.

#[local] Open Scope exec_scope.

(** The data properties of the object literal. *)
Definition literal : Selector :=
  {| result := "";
     isSelectorHaveElement := false;
     isSelectorHaveId := false;
     isSelectorHavePseudoElement := false;
     rightOrder :=
       ["element"; "id"; "class"; "attribute"; "pseudo-class"; "pseudo-element"];
     currentOrder := [] |}.

Definition orderMessage : string :=
  "Selector parts should be arranged in the following order: element, id, class, attribute, pseudo-class, pseudo-element".

Definition uniquenessMessage : string :=
  "Element, id and pseudo-element should not occur more then one time inside the selector".

Definition isOrderRight (currentSelector : string) (this : ref) : Exec bool :=
  ro ← get rightOrder this;
  let patternArr := JS.slice ro (JS.indexOf ro currentSelector + 1) in
  co ← get currentOrder this;
  if JS.some co (fun sel => JS.includes patternArr sel)
  then ret false
  else ret true.

Definition element (value : string) (this : ref) : Exec ref :=
  ok ← isOrderRight "element" this;
  if negb ok then throw (JS.mkError orderMessage) else
  has ← get isSelectorHaveElement this;
  if has then throw (JS.mkError uniquenessMessage) else
  copyObj ← spread this;
  r ← get result copyObj;
  assign copyObj (set_result (r +:+ value));;
  assign copyObj (set_isSelectorHaveElement true);;
  co ← get currentOrder copyObj;
  assign copyObj (set_currentOrder (co ++ ["element"]));;
  ret copyObj.

Definition id (value : string) (this : ref) : Exec ref :=
  ok ← isOrderRight "id" this;
  if negb ok then throw (JS.mkError orderMessage) else
  has ← get isSelectorHaveId this;
  if has then throw (JS.mkError uniquenessMessage) else
  copyObj ← spread this;
  r ← get result copyObj;
  assign copyObj (set_result (r +:+ "#" +:+ value));;
  assign copyObj (set_isSelectorHaveId true);;
  co ← get currentOrder copyObj;
  assign copyObj (set_currentOrder (co ++ ["id"]));;
  ret copyObj.

Definition class (value : string) (this : ref) : Exec ref :=
  ok ← isOrderRight "class" this;
  if negb ok then throw (JS.mkError orderMessage) else
  copyObj ← spread this;
  r ← get result copyObj;
  assign copyObj (set_result (r +:+ "." +:+ value));;
  co ← get currentOrder copyObj;
  assign copyObj (set_currentOrder (co ++ ["class"]));;
  ret copyObj.

Definition attr (value : string) (this : ref) : Exec ref :=
  ok ← isOrderRight "attribute" this;
  if negb ok then throw (JS.mkError orderMessage) else
  copyObj ← spread this;
  r ← get result copyObj;
  assign copyObj (set_result (r +:+ "[" +:+ value +:+ "]"));;
  co ← get currentOrder copyObj;
  assign copyObj (set_currentOrder (co ++ ["attribute"]));;
  ret copyObj.

Definition pseudoClass (value : string) (this : ref) : Exec ref :=
  ok ← isOrderRight "pseudo-class" this;
  if negb ok then throw (JS.mkError orderMessage) else
  copyObj ← spread this;
  r ← get result copyObj;
  assign copyObj (set_result (r +:+ ":" +:+ value));;
  co ← get currentOrder copyObj;
  assign copyObj (set_currentOrder (co ++ ["pseudo-class"]));;
  ret copyObj.

Definition pseudoElement (value : string) (this : ref) : Exec ref :=
  ok ← isOrderRight "pseudo-element" this;
  if negb ok then throw (JS.mkError orderMessage) else
  has ← get isSelectorHavePseudoElement this;
  if has then throw (JS.mkError uniquenessMessage) else
  copyObj ← spread this;
  r ← get result copyObj;
  assign copyObj (set_result (r +:+ "::" +:+ value));;
  assign copyObj (set_isSelectorHavePseudoElement true);;
  co ← get currentOrder copyObj;
  assign copyObj (set_currentOrder (co ++ ["pseudo-element"]));;
  ret copyObj.

Definition stringify (this : ref) : Exec string :=
  shouldReturn ← get result this;
  assign this (set_result "");;
  assign this (set_currentOrder []);;
  ret shouldReturn.

Definition combine (selector1 : ref) (combinator : string) (selector2 : ref)
    (this : ref) : Exec ref :=
  copyObj ← spread this;
  s1 ← stringify selector1;
  s2 ← stringify selector2;
  assign copyObj (set_result (s1 +:+ " " +:+ combinator +:+ " " +:+ s2));;
  ret copyObj.

End cssSelectorBuilder.

(** The module's top level evaluates the object literal once: the facade is
    the first object of the store. *)
Definition facade : ref := 0.
Definition initial : store := [cssSelectorBuilder.literal].

(** ** Chains of fragment calls *)

(** The six fragment-adding methods. *)
Inductive Method : Type :=
| Element | Id | Class | Attr | PseudoClass | PseudoElement.

#[export] Instance Method_eq_dec : EqDecision Method.
Proof. solve_decision. Defined.

Definition invoke (m : Method) : string -> ref -> Exec ref :=
  match m with
  | Element => cssSelectorBuilder.element
  | Id => cssSelectorBuilder.id
  | Class => cssSelectorBuilder.class
  | Attr => cssSelectorBuilder.attr
  | PseudoClass => cssSelectorBuilder.pseudoClass
  | PseudoElement => cssSelectorBuilder.pseudoElement
  end.

(** The name a method passes to [isOrderRight] and appends to
    [currentOrder]. *)
Definition kind (m : Method) : string :=
  match m with
  | Element => "element"
  | Id => "id"
  | Class => "class"
  | Attr => "attribute"
  | PseudoClass => "pseudo-class"
  | PseudoElement => "pseudo-element"
  end.

(** The text a method appends to [result]. *)
Definition rendered (m : Method) (value : string) : string :=
  match m with
  | Element => value
  | Id => "#" +:+ value
  | Class => "." +:+ value
  | Attr => "[" +:+ value +:+ "]"
  | PseudoClass => ":" +:+ value
  | PseudoElement => "::" +:+ value
  end.

(** The rank of a kind is its position in the literal's [rightOrder]. *)
Definition rank (m : Method) : Z :=
  JS.indexOf (rightOrder cssSelectorBuilder.literal) (kind m).

(** The kinds guarded by a flag. *)
Definition once (m : Method) : bool :=
  match m with
  | Element | Id | PseudoElement => true
  | Class | Attr | PseudoClass => false
  end.

(** [this.m1(v1).m2(v2)...]: each call's receiver is the previous call's
    value, and a throw ends the chain. *)
Fixpoint chain (calls : list (Method * string)) (this : ref) : Exec ref :=
  match calls with
  | [] => ret this
  | (m, value) :: rest => bind (invoke m value this) (chain rest)
  end.

(** [this.m1(v1)....stringify()] *)
Definition chainStringify (calls : list (Method * string)) (this : ref)
    : Exec string :=
  bind (chain calls this) cssSelectorBuilder.stringify.

(** What the caller observes of a call: its completion. *)
Definition outcome {A} (r : option (completion A * store)) : option (completion A) :=
  fst <$> r.

(** ** The stores a client of the module can produce

    A client calls the methods on the objects it holds; the operands of
    [combine] are objects that exist when the call is made. *)

Inductive Call : Type :=
| CallFragment (m : Method) (value : string) (this : ref)
| CallCombine (selector1 : ref) (combinator : string) (selector2 : ref) (this : ref)
| CallStringify (this : ref).

Definition after (c : Call) (h : store) : option store :=
  match c with
  | CallFragment m value this => snd <$> invoke m value this h
  | CallCombine selector1 combinator selector2 this =>
      _ ← h !! selector1;
      _ ← h !! selector2;
      snd <$> cssSelectorBuilder.combine selector1 combinator selector2 this h
  | CallStringify this => snd <$> cssSelectorBuilder.stringify this h
  end.

Inductive reachable : store -> Prop :=
| reachable_initial : reachable initial
| reachable_call c h h' : reachable h -> after c h = Some h' -> reachable h'.

(** ** What each method does to the receiver's object *)

Definition SelectorOrderError : JS.Error :=
  JS.mkError cssSelectorBuilder.orderMessage.

Definition SelectorUniquenessError : JS.Error :=
  JS.mkError cssSelectorBuilder.uniquenessMessage.

(** The value [isOrderRight(currentSelector)] returns on object [o]. *)
Definition orderRight (currentSelector : string) (o : Selector) : bool :=
  negb (JS.some (currentOrder o)
          (fun sel =>
             JS.includes
               (JS.slice (rightOrder o)
                  (JS.indexOf (rightOrder o) currentSelector + 1)) sel)).

(** The flag a method tests, if any. *)
Definition flag (m : Method) (o : Selector) : bool :=
  match m with
  | Element => isSelectorHaveElement o
  | Id => isSelectorHaveId o
  | PseudoElement => isSelectorHavePseudoElement o
  | Class | Attr | PseudoClass => false
  end.

(** The error a fragment call on [o] throws, if any: the order test comes
    first. *)
Definition verdict (m : Method) (o : Selector) : option JS.Error :=
  if negb (orderRight (kind m) o) then Some SelectorOrderError
  else if flag m o then Some SelectorUniquenessError
  else None.

(** The object a successful fragment call on [o] returns. *)
Definition extended (m : Method) (value : string) (o : Selector) : Selector :=
  {| result := result o +:+ rendered m value;
     isSelectorHaveElement :=
       match m with Element => true | _ => isSelectorHaveElement o end;
     isSelectorHaveId :=
       match m with Id => true | _ => isSelectorHaveId o end;
     isSelectorHavePseudoElement :=
       match m with PseudoElement => true | _ => isSelectorHavePseudoElement o end;
     rightOrder := rightOrder o;
     currentOrder := currentOrder o ++ [kind m] |}.

(** The receiver after [stringify]. *)
Definition cleared (o : Selector) : Selector :=
  set_currentOrder [] (set_result "" o).

(** The second operand as [combine] finds it: already cleared when it is
    the first operand. *)
Definition secondOperand (selector1 selector2 : ref) (o1 o2 : Selector) : Selector :=
  if decide (selector1 = selector2) then cleared o1 else o2.

(** ** Chains on the receiver's object *)

(** The completion of a chain as a function of the object it starts from:
    the object the last call returns, or the first error. *)
Fixpoint chainOn (calls : list (Method * string)) (o : Selector)
    : completion Selector :=
  match calls with
  | [] => Normal o
  | (m, value) :: rest =>
      match verdict m o with
      | Some e => Throw e
      | None => chainOn rest (extended m value o)
      end
  end.

(** The text of a chain: the rendered forms in call order. *)
Fixpoint text (calls : list (Method * string)) : string :=
  match calls with
  | [] => ""
  | (m, value) :: rest => rendered m value +:+ text rest
  end.

Definition occurrences (m : Method) (calls : list (Method * string)) : nat :=
  List.length (filter (fun c => c.1 = m) calls).

Fixpoint nonDecreasing (ranks : list Z) : bool :=
  match ranks with
  | [] => true
  | r :: rest =>
      match rest with
      | [] => true
      | r' :: _ => (r <=? r')%Z && nonDecreasing rest
      end
  end.

(** A chain in non-decreasing rank order with at most one element, id and
    pseudo-element. *)
Definition validChain (calls : list (Method * string)) : Prop :=
  nonDecreasing (rank <$> calls.*1) = true /\
  occurrences Element calls <= 1 /\
  occurrences Id calls <= 1 /\
  occurrences PseudoElement calls <= 1.

(** ** Invariants of the reachable stores *)

Definition wellFormed (o : Selector) : Prop :=
  rightOrder o = rightOrder cssSelectorBuilder.literal /\
  exists ks : list Method, currentOrder o = kind <$> ks.

(** The facade holds the literal's values, and every object has the
    literal's [rightOrder] and a [currentOrder] made of kind names. *)
Definition invariant (h : store) : Prop :=
  h !! facade = Some cssSelectorBuilder.literal /\ Forall wellFormed h.

(** ** Kind sequences that respect the order and the guards *)

Definition countKind (m : Method) (ks : list Method) : nat :=
  List.length (filter (fun k => k = m) ks).

(** Non-decreasing ranks, and no guarded kind twice. *)
Definition orderly (ks : list Method) : Prop :=
  nonDecreasing (rank <$> ks) = true /\
  forall m, once m = true -> countKind m ks <= 1.

(** The bookkeeping of [o] stands for the kind sequence [ks]: [currentOrder]
    spells it, it is orderly, and the flag of every guarded kind in it is
    set. *)
Definition tracks (o : Selector) (ks : list Method) : Prop :=
  rightOrder o = rightOrder cssSelectorBuilder.literal /\
  currentOrder o = kind <$> ks /\
  orderly ks /\
  forall m, once m = true -> m ∈ ks -> flag m o = true.

Definition consistent (h : store) : Prop :=
  Forall (fun o => exists ks, tracks o ks) h.

(** * Proofs *)

(** ** The methods as equations on the store *)

(** A reference that holds an object is within the store. *)
Ltac in_store := eapply lookup_lt_Some; eassumption.

Section Equations.

Implicit Types (h : store) (o : Selector) (l this : ref).

Lemma get_eq {A} (f : Selector -> A) h l o :
  h !! l = Some o -> get f l h = Some (Normal (f o), h).
Proof. intros E. unfold get. now rewrite E. Qed.

Lemma assign_eq (upd : Selector -> Selector) h l o :
  h !! l = Some o -> assign l upd h = Some (Normal tt, <[l := upd o]> h).
Proof. intros E. unfold assign. now rewrite E. Qed.

Lemma spread_eq h l o :
  h !! l = Some o -> spread l h = Some (Normal (List.length h), h ++ [o]).
Proof. intros E. unfold spread. now rewrite E. Qed.

Lemma get_new {A} (f : Selector -> A) h o :
  get f (List.length h) (h ++ [o]) = Some (Normal (f o), h ++ [o]).
Proof. apply get_eq. now rewrite list_lookup_middle. Qed.

Lemma assign_new (upd : Selector -> Selector) h o :
  assign (List.length h) upd (h ++ [o]) = Some (Normal tt, h ++ [upd o]).
Proof.
  rewrite (assign_eq _ _ _ o) by now rewrite list_lookup_middle.
  now rewrite insert_app_r_alt, Nat.sub_diag by lia.
Qed.

Lemma isOrderRight_eq (currentSelector : string) h this o :
  h !! this = Some o ->
  cssSelectorBuilder.isOrderRight currentSelector this h
  = Some (Normal (orderRight currentSelector o), h).
Proof.
  intros E. unfold cssSelectorBuilder.isOrderRight, bind, orderRight.
  rewrite !(get_eq _ _ _ o) by assumption.
  now destruct (JS.some _ _).
Qed.

Lemma invoke_eq (m : Method) (value : string) h this o :
  h !! this = Some o ->
  invoke m value this h
  = Some (match verdict m o with
          | Some e => (Throw e, h)
          | None => (Normal (List.length h), h ++ [extended m value o])
          end).
Proof.
  intros E. unfold verdict.
  destruct m; simpl;
    unfold cssSelectorBuilder.element, cssSelectorBuilder.id,
      cssSelectorBuilder.class, cssSelectorBuilder.attr,
      cssSelectorBuilder.pseudoClass, cssSelectorBuilder.pseudoElement;
    unfold bind at 1; rewrite (isOrderRight_eq _ _ _ o E);
    destruct (orderRight _ o); simpl; try reflexivity;
    unfold bind;
    rewrite ?(get_eq _ _ _ o E);
    try match goal with |- context [if ?b then _ else _] => destruct b eqn:Eb end;
    try reflexivity;
    rewrite (spread_eq _ _ o E), !get_new, !assign_new; try rewrite !get_new, !assign_new;
    unfold extended, ret; simpl; rewrite ?Eb; destruct o; reflexivity.
Qed.

Lemma stringify_eq h this o :
  h !! this = Some o ->
  cssSelectorBuilder.stringify this h
  = Some (Normal (result o), <[this := cleared o]> h).
Proof.
  intros E. unfold cssSelectorBuilder.stringify, bind.
  rewrite (get_eq _ _ _ o E), (assign_eq _ _ _ o E).
  assert (L : this < List.length h) by in_store.
  rewrite (assign_eq _ _ _ (set_result "" o)) by now rewrite list_lookup_insert_eq.
  now rewrite list_insert_insert_eq.
Qed.

End Equations.

(** A call through a reference that holds no object does not run. *)
Lemma invoke_None (m : Method) (value : string) (h : store) (this : ref) :
  h !! this = None -> invoke m value this h = None.
Proof.
  intros E.
  destruct m; simpl;
    unfold cssSelectorBuilder.element, cssSelectorBuilder.id,
      cssSelectorBuilder.class, cssSelectorBuilder.attr,
      cssSelectorBuilder.pseudoClass, cssSelectorBuilder.pseudoElement,
      cssSelectorBuilder.isOrderRight, bind, get;
    now rewrite E.
Qed.

Lemma stringify_None (h : store) (this : ref) :
  h !! this = None -> cssSelectorBuilder.stringify this h = None.
Proof.
  intros E. unfold cssSelectorBuilder.stringify, bind, get. now rewrite E.
Qed.

Lemma combine_eq (h : store) (selector1 selector2 this : ref)
    (combinator : string) (o1 o2 ot : Selector) :
  h !! selector1 = Some o1 ->
  h !! selector2 = Some o2 ->
  h !! this = Some ot ->
  let o2' := secondOperand selector1 selector2 o1 o2 in
  cssSelectorBuilder.combine selector1 combinator selector2 this h
  = Some (Normal (List.length h),
          <[selector2 := cleared o2']> (<[selector1 := cleared o1]> h)
          ++ [set_result (result o1 +:+ " " +:+ combinator +:+ " " +:+ result o2') ot]).
Proof.
  intros E1 E2 Et o2'.
  assert (L1 : selector1 < List.length h) by in_store.
  assert (L2 : selector2 < List.length h) by in_store.
  assert (E2' : (<[selector1 := cleared o1]> h ++ [ot]) !! selector2 = Some o2').
  { apply lookup_app_l_Some. subst o2'. unfold secondOperand.
    destruct (decide (selector1 = selector2)) as [<- | N].
    - now rewrite list_lookup_insert_eq.
    - now rewrite list_lookup_insert_ne. }
  unfold cssSelectorBuilder.combine. unfold bind at 1.
  rewrite (spread_eq _ _ ot Et). cbv beta iota.
  unfold bind at 1.
  rewrite (stringify_eq _ _ o1) by now apply lookup_app_l_Some.
  cbv beta iota. rewrite insert_app_l by assumption.
  unfold bind at 1.
  rewrite (stringify_eq _ _ o2' E2'). cbv beta iota.
  rewrite insert_app_l by now rewrite length_insert.
  unfold bind, ret.
  replace (List.length h)
    with (List.length (<[selector2 := cleared o2']> (<[selector1 := cleared o1]> h)))
    by now rewrite !length_insert.
  now rewrite assign_new.
Qed.

Lemma combine_None (h : store) (selector1 selector2 this : ref) (combinator : string) :
  h !! this = None ->
  cssSelectorBuilder.combine selector1 combinator selector2 this h = None.
Proof.
  intros E. unfold cssSelectorBuilder.combine, bind at 1, spread. now rewrite E.
Qed.

Lemma wellFormed_literal : wellFormed cssSelectorBuilder.literal.
Proof. split; [ reflexivity | now exists [] ]. Qed.

Lemma wellFormed_extended (m : Method) (value : string) (o : Selector) :
  wellFormed o -> wellFormed (extended m value o).
Proof.
  intros [R [ks C]]. split; [ exact R | ].
  exists (ks ++ [m]). simpl. now rewrite C, fmap_app.
Qed.

Lemma wellFormed_cleared (o : Selector) : wellFormed o -> wellFormed (cleared o).
Proof. intros [R _]. split; [ exact R | now exists [] ]. Qed.

Lemma wellFormed_set_result (v : string) (o : Selector) :
  wellFormed o -> wellFormed (set_result v o).
Proof. intros [R C]. split; assumption. Qed.

Lemma invariant_initial : invariant initial.
Proof.
  split; [ reflexivity | ].
  apply Forall_singleton, wellFormed_literal.
Qed.

Lemma invariant_grow (h : store) (o : Selector) :
  invariant h -> wellFormed o -> invariant (h ++ [o]).
Proof.
  intros [F W] Wo. split.
  - now apply lookup_app_l_Some.
  - apply Forall_app. split; [ exact W | ].
    now apply Forall_singleton.
Qed.

Lemma invariant_clear (h : store) (l : ref) (o : Selector) :
  invariant h -> h !! l = Some o -> invariant (<[l := cleared o]> h).
Proof.
  intros [F W] E. split.
  - destruct (decide (l = facade)) as [-> | N].
    + rewrite F in E. injection E as <-.
      apply list_lookup_insert_eq. now apply lookup_lt_Some in F.
    + now rewrite list_lookup_insert_ne.
  - apply Forall_insert; [ exact W | ].
    apply wellFormed_cleared. eapply Forall_lookup_1; eassumption.
Qed.

Lemma invariant_wellFormed (h : store) (l : ref) (o : Selector) :
  invariant h -> h !! l = Some o -> wellFormed o.
Proof. intros [_ W] E. eapply Forall_lookup_1; eassumption. Qed.

Lemma invariant_after (c : Call) (h h' : store) :
  invariant h -> after c h = Some h' -> invariant h'.
Proof.
  intros I A. destruct c as [m value this | s1 comb s2 this | this]; simpl in A.
  - destruct (h !! this) as [o | ] eqn:E;
      [ | now rewrite invoke_None in A ].
    rewrite (invoke_eq _ _ _ _ o E) in A. simpl in A. injection A as <-.
    destruct (verdict m o); simpl; [ exact I | ].
    apply invariant_grow; [ exact I | ].
    apply wellFormed_extended. eapply invariant_wellFormed; eassumption.
  - destruct (h !! s1) as [o1 | ] eqn:E1; [ | discriminate ].
    destruct (h !! s2) as [o2 | ] eqn:E2; [ | discriminate ].
    simpl in A.
    destruct (h !! this) as [ot | ] eqn:Et;
      [ | now rewrite combine_None in A ].
    rewrite (combine_eq _ _ _ _ _ o1 o2 ot E1 E2 Et) in A.
    simpl in A. injection A as <-.
    apply invariant_grow.
    + apply invariant_clear; [ now apply invariant_clear | ].
      unfold secondOperand. destruct (decide (s1 = s2)) as [<- | N].
      * apply list_lookup_insert_eq. now apply lookup_lt_Some in E1.
      * now rewrite list_lookup_insert_ne.
    + apply wellFormed_set_result. eapply invariant_wellFormed; eassumption.
  - destruct (h !! this) as [o | ] eqn:E;
      [ | now rewrite stringify_None in A ].
    rewrite (stringify_eq _ _ o E) in A. simpl in A. injection A as <-.
    now apply invariant_clear.
Qed.

Lemma reachable_invariant (h : store) : reachable h -> invariant h.
Proof.
  induction 1 as [ | c h h' _ IH A ].
  - apply invariant_initial.
  - eapply invariant_after; eassumption.
Qed.

(** ** The order test in terms of ranks *)

Lemma rank_values :
  rank Element = 0%Z /\ rank Id = 1%Z /\ rank Class = 2%Z /\
  rank Attr = 3%Z /\ rank PseudoClass = 4%Z /\ rank PseudoElement = 5%Z.
Proof. repeat split. Qed.

(** The slice of [rightOrder] after [kind m] holds the kinds of greater
    rank. *)
Lemma includes_after (m k : Method) :
  JS.includes
    (JS.slice (rightOrder cssSelectorBuilder.literal)
       (JS.indexOf (rightOrder cssSelectorBuilder.literal) (kind m) + 1))
    (kind k)
  = (rank m <? rank k)%Z.
Proof. destruct m, k; reflexivity. Qed.

Lemma orderRight_ranks (m : Method) (o : Selector) (ks : list Method) :
  rightOrder o = rightOrder cssSelectorBuilder.literal ->
  currentOrder o = kind <$> ks ->
  orderRight (kind m) o = forallb (fun k => (rank k <=? rank m)%Z) ks.
Proof.
  intros R C. unfold orderRight, JS.some. rewrite R, C. clear R C.
  induction ks as [ | k ks IH ]; [ reflexivity | ].
  rewrite fmap_cons. cbn [existsb forallb].
  rewrite includes_after, negb_orb, IH.
  now rewrite Z.leb_antisym.
Qed.

Lemma append_assoc (a b c : string) : (a +:+ b) +:+ c = a +:+ (b +:+ c).
Proof.
  induction a as [ | x a IH ]; [ reflexivity | ].
  change (String x ((a +:+ b) +:+ c) = String x (a +:+ (b +:+ c))).
  now f_equal.
Qed.

Lemma append_empty_r (a : string) : a +:+ "" = a.
Proof.
  induction a as [ | x a IH ]; [ reflexivity | ].
  change (String x (a +:+ "") = String x a).
  now f_equal.
Qed.

(** The chain on the store agrees with the chain on the object: it only
    adds objects to the store, and its value refers to the object computed
    by [chainOn]. *)
Lemma chain_eq (calls : list (Method * string)) :
  forall (h : store) (this : ref) (o : Selector),
    h !! this = Some o ->
    exists ext : store,
      match chainOn calls o with
      | Throw e => chain calls this h = Some (Throw e, h ++ ext)
      | Normal o' =>
          exists l, chain calls this h = Some (Normal l, h ++ ext) /\
                    (h ++ ext) !! l = Some o'
      end.
Proof.
  induction calls as [ | [m value] rest IH ]; intros h this o E.
  - exists []. simpl. exists this. rewrite app_nil_r. split; [ reflexivity | exact E ].
  - simpl. unfold bind. rewrite (invoke_eq _ _ _ _ o E).
    destruct (verdict m o) as [e | ].
    + exists []. now rewrite app_nil_r.
    + destruct (IH (h ++ [extended m value o]) (List.length h) (extended m value o))
        as [ext H]; [ now rewrite list_lookup_middle | ].
      exists (extended m value o :: ext).
      replace (h ++ extended m value o :: ext)
        with ((h ++ [extended m value o]) ++ ext) by now rewrite <- app_assoc.
      exact H.
Qed.

(** What the caller of [this.m1(v1)....stringify()] observes depends on the
    receiver's object alone. *)
Lemma chainStringify_outcome (calls : list (Method * string))
    (h : store) (this : ref) (o : Selector) :
  h !! this = Some o ->
  outcome (chainStringify calls this h)
  = Some (match chainOn calls o with
          | Throw e => Throw e
          | Normal o' => Normal (result o')
          end).
Proof.
  intros E. unfold chainStringify, bind, outcome.
  destruct (chain_eq calls h this o E) as [ext H].
  destruct (chainOn calls o) as [o' | e].
  - destruct H as [l [-> El]]. now rewrite (stringify_eq _ _ o' El).
  - now rewrite H.
Qed.

(** The fields of the object a chain returns. *)
Lemma chainOn_fields (calls : list (Method * string)) :
  forall o o' : Selector,
    chainOn calls o = Normal o' ->
    result o' = result o +:+ text calls /\
    currentOrder o' = currentOrder o ++ (kind <$> calls.*1) /\
    rightOrder o' = rightOrder o /\
    forall m, flag m o' = flag m o || (once m && bool_decide (m ∈ calls.*1)).
Proof.
  induction calls as [ | [m value] rest IH ]; intros o o' H; simpl in H.
  - injection H as <-. simpl. rewrite append_empty_r, app_nil_r.
    repeat split. intros m. destruct (once m); simpl; now rewrite ?orb_false_r.
  - destruct (verdict m o); [ discriminate | ].
    destruct (IH _ _ H) as (Hr & Hc & Ho & Hf). repeat split.
    + rewrite Hr. simpl. apply append_assoc.
    + rewrite Hc. simpl. now rewrite <- app_assoc.
    + exact Ho.
    + intros k. rewrite Hf, fmap_cons. cbn [fst].
      destruct (decide (k = m)) as [-> | N].
      * rewrite (bool_decide_eq_true_2 (m ∈ m :: rest.*1)) by apply list_elem_of_here.
        destruct m; simpl; rewrite ?orb_true_r, ?orb_false_r; try reflexivity;
          now destruct (flag _ o).
      * assert (B : bool_decide (k ∈ m :: rest.*1) = bool_decide (k ∈ rest.*1)).
        { apply bool_decide_ext. rewrite elem_of_cons. tauto. }
        rewrite B. f_equal. destruct k, m; try reflexivity; congruence.
Qed.

Lemma chain_Normal_inv (calls : list (Method * string))
    (h h' : store) (this l : ref) (o : Selector) :
  h !! this = Some o ->
  chain calls this h = Some (Normal l, h') ->
  exists o', chainOn calls o = Normal o' /\ h' !! l = Some o' /\
             exists ext, h' = h ++ ext.
Proof.
  intros E H. destruct (chain_eq calls h this o E) as [ext X].
  destruct (chainOn calls o) as [o' | e].
  - destruct X as [l' [X El]]. rewrite X in H. injection H as -> <-.
    exists o'. repeat split; [ exact El | now exists ext ].
  - rewrite X in H. discriminate.
Qed.

Lemma occurrences_cons (m k : Method) (value : string)
    (rest : list (Method * string)) :
  occurrences m ((k, value) :: rest)
  = (if decide (k = m) then 1 else 0) + occurrences m rest.
Proof.
  unfold occurrences. rewrite filter_cons. cbn [fst].
  now destruct (decide (k = m)).
Qed.

Lemma nonDecreasing_cons (r : Z) (rest : list Z) :
  nonDecreasing (r :: rest) = true ->
  nonDecreasing rest = true /\ forall r', head rest = Some r' -> (r <= r')%Z.
Proof.
  destruct rest as [ | r' rest ]; simpl.
  - intros _. split; [ reflexivity | discriminate ].
  - intros H. apply andb_prop in H as [L N]. split; [ exact N | ].
    intros ? [= <-]. now apply Z.leb_le.
Qed.

(** On a receiver whose emitted kinds rank no higher than the first call and
    whose set flags do not recur, a chain in non-decreasing order that
    repeats no guarded kind runs to the end. *)
Lemma chainOn_valid (calls : list (Method * string)) :
  forall (o : Selector) (ks : list Method),
    rightOrder o = rightOrder cssSelectorBuilder.literal ->
    currentOrder o = kind <$> ks ->
    (forall k c, k ∈ ks -> head calls = Some c -> (rank k <= rank c.1)%Z) ->
    nonDecreasing (rank <$> calls.*1) = true ->
    (forall m, flag m o = true -> occurrences m calls = 0) ->
    (forall m, once m = true -> occurrences m calls <= 1) ->
    exists o', chainOn calls o = Normal o'.
Proof.
  induction calls as [ | [m value] rest IH ]; intros o ks R C B S F U.
  - now exists o.
  - simpl.
    assert (V : verdict m o = None).
    { unfold verdict. rewrite (orderRight_ranks m o ks R C).
      assert (A : forallb (fun k => (rank k <=? rank m)%Z) ks = true).
      { apply forallb_forall. intros k I. apply Z.leb_le.
        apply (B k (m, value)); [ now apply list_elem_of_In | reflexivity ]. }
      rewrite A. simpl.
      destruct (flag m o) eqn:Fm; [ | reflexivity ].
      specialize (F m Fm). rewrite occurrences_cons in F.
      destruct (decide (m = m)); [ lia | congruence ]. }
    rewrite V. rewrite !fmap_cons in S. cbn [fst] in S.
    apply nonDecreasing_cons in S as [S Hd].
    apply (IH (extended m value o) (ks ++ [m])).
    + exact R.
    + simpl. now rewrite C, fmap_app.
    + intros k c I Hc.
      assert (Lm : (rank m <= rank c.1)%Z).
      { apply Hd. destruct rest as [ | c' rest' ]; [ discriminate | ].
        simpl in Hc. injection Hc as ->. reflexivity. }
      apply elem_of_app in I as [I | I].
      * specialize (B k (m, value) I eq_refl). simpl in B. lia.
      * apply list_elem_of_singleton in I as ->. exact Lm.
    + exact S.
    + intros k Fk.
      destruct (decide (m = k)) as [<- | N].
      * assert (O : once m = true) by (destruct m; (reflexivity || discriminate)).
        specialize (U m O). rewrite occurrences_cons in U.
        destruct (decide (m = m)); [ lia | congruence ].
      * assert (Fo : flag k o = true)
          by (destruct m, k; simpl in Fk |- *; congruence).
        specialize (F k Fo). rewrite occurrences_cons in F. lia.
    + intros k O. specialize (U k O). rewrite occurrences_cons in U. lia.
Qed.

Lemma chainOn_validChain (calls : list (Method * string)) :
  validChain calls ->
  exists o', chainOn calls cssSelectorBuilder.literal = Normal o'.
Proof.
  intros (S & UE & UI & UP).
  apply (chainOn_valid calls cssSelectorBuilder.literal []).
  - reflexivity.
  - reflexivity.
  - intros k c I. now apply elem_of_nil in I.
  - exact S.
  - intros m Fm. destruct m; discriminate.
  - intros m O. destruct m; try discriminate; assumption.
Qed.

Lemma chain_app (pre rest : list (Method * string)) (this : ref) (h : store) :
  chain (pre ++ rest) this h = bind (chain pre this) (chain rest) h.
Proof.
  revert this h. induction pre as [ | [m value] pre IH ]; intros this h.
  - reflexivity.
  - simpl. unfold bind.
    destruct (invoke m value this h) as [[[l | e] h1] | ]; [ | reflexivity .. ].
    now rewrite IH.
Qed.

Lemma chainOn_app (pre rest : list (Method * string)) (o : Selector) :
  chainOn (pre ++ rest) o
  = match chainOn pre o with
    | Normal o' => chainOn rest o'
    | Throw e => Throw e
    end.
Proof.
  revert o. induction pre as [ | [m value] pre IH ]; intros o; simpl.
  - reflexivity.
  - destruct (verdict m o); [ reflexivity | apply IH ].
Qed.

(** When a chain from the literal's values runs to the end, no kind it
    emitted ranks higher than its last call. *)
Lemma last_call_ranks_highest (pre : list (Method * string)) (m : Method)
    (value : string) (o' : Selector) :
  chainOn (pre ++ [(m, value)]) cssSelectorBuilder.literal = Normal o' ->
  forallb (fun k => (rank k <=? rank m)%Z) (pre ++ [(m, value)]).*1 = true.
Proof.
  rewrite chainOn_app.
  destruct (chainOn pre cssSelectorBuilder.literal) as [o1 | e] eqn:E1;
    [ | discriminate ].
  destruct (chainOn_fields pre _ _ E1) as (_ & Hc & Hr & _).
  simpl. unfold verdict.
  rewrite (orderRight_ranks m o1 pre.*1 Hr Hc).
  rewrite fmap_app, forallb_app.
  destruct (forallb _ pre.*1); [ | discriminate ].
  intros _. simpl. now rewrite Z.leb_refl.
Qed.

(** ** When a fragment call returns *)

#[export] Instance kind_inj : Inj (=) (=) kind.
Proof. intros k1 k2 E. destruct k1, k2; (reflexivity || discriminate). Qed.

Lemma verdict_None (m : Method) (o : Selector) :
  verdict m o = None <-> orderRight (kind m) o = true /\ flag m o = false.
Proof.
  unfold verdict. destruct (orderRight (kind m) o), (flag m o); simpl;
    split; try discriminate; try (intros [? ?]; discriminate); auto.
Qed.

Lemma orderRight_true_iff (m : Method) (o : Selector) (ks : list Method) :
  rightOrder o = rightOrder cssSelectorBuilder.literal ->
  currentOrder o = kind <$> ks ->
  orderRight (kind m) o = true <->
  forall k, kind k ∈ currentOrder o -> (rank k <= rank m)%Z.
Proof.
  intros R C. rewrite (orderRight_ranks m o ks R C), C, forallb_forall. split.
  - intros A k I. apply Z.leb_le, A, list_elem_of_In.
    now apply (list_elem_of_fmap_inj kind) in I.
  - intros A k I. apply Z.leb_le, A, list_elem_of_fmap_2, list_elem_of_In, I.
Qed.

(** ** The examples of the source's documentation *)

Example stringify_id_classes :
  outcome (chainStringify
             [(Id, "main"); (Class, "container"); (Class, "editable")]
             facade initial)
  = Some (Normal "#main.container.editable").
Proof. reflexivity. Qed.

Example stringify_nested_combine :
  outcome
    ((a ← chain [(Element, "div"); (Id, "main"); (Class, "container");
                 (Class, "draggable")] facade;
      b ← chain [(Element, "table"); (Id, "data")] facade;
      c ← chain [(Element, "tr"); (PseudoClass, "nth-of-type(even)")] facade;
      d ← chain [(Element, "td"); (PseudoClass, "nth-of-type(even)")] facade;
      cd ← cssSelectorBuilder.combine c " " d facade;
      bcd ← cssSelectorBuilder.combine b "~" cd facade;
      abcd ← cssSelectorBuilder.combine a "+" bcd facade;
      cssSelectorBuilder.stringify abcd)%exec initial)
  = Some (Normal
      "div#main.container.draggable + table#data ~ tr:nth-of-type(even)   td:nth-of-type(even)").
Proof. reflexivity. Qed.

Example element_twice_throws :
  outcome (chain [(Element, "table"); (Element, "div")] facade initial)
  = Some (Throw SelectorUniquenessError).
Proof. reflexivity. Qed.

(** * The claims *)

(** C1.  From the facade of any reachable store, a chain of fragment calls
    whose kinds are in non-decreasing rank order, with at most one element,
    one id and one pseudo-element, runs to the end without an error, and
    [stringify] on its value returns the rendered forms of the fragments
    concatenated in call order; class, attribute and pseudo-class are not
    limited in number. *)
Theorem valid_chain_renders (h : store) (calls : list (Method * string))
    (Hreach : reachable h) (Hvalid : validChain calls) :
  exists (l : ref) (h' h'' : store),
    chain calls facade h = Some (Normal l, h') /\
    cssSelectorBuilder.stringify l h' = Some (Normal (text calls), h'').
Proof.
  destruct (reachable_invariant h Hreach) as [F _].
  destruct (chainOn_validChain calls Hvalid) as [o' Ho].
  destruct (chain_eq calls h facade _ F) as [ext X].
  rewrite Ho in X. destruct X as [l [X El]].
  exists l, (h ++ ext), (<[l := cleared o']> (h ++ ext)).
  split; [ exact X | ].
  rewrite (stringify_eq _ _ o' El).
  destruct (chainOn_fields calls _ _ Ho) as (Hr & _).
  now rewrite Hr.
Qed.

Lemma valid_chain_renders_witness :
  exists (l : ref) (h' h'' : store),
    chain [(Element, "a"); (Class, "b"); (Class, "c"); (Attr, "d");
           (PseudoClass, "e"); (PseudoClass, "f"); (PseudoElement, "g")]
      facade initial = Some (Normal l, h') /\
    cssSelectorBuilder.stringify l h' = Some (Normal "a.b.c[d]:e:f::g", h'').
Proof.
  apply (valid_chain_renders initial
           [(Element, "a"); (Class, "b"); (Class, "c"); (Attr, "d");
            (PseudoClass, "e"); (PseudoClass, "f"); (PseudoElement, "g")]).
  - apply reachable_initial.
  - unfold validChain, occurrences. simpl. repeat split; lia.
Defined.

(** C2.  On any object of a reachable store, a fragment call of kind [m]
    throws the order error, whose message names the required order, as soon
    as [currentOrder] holds a kind of strictly greater rank; the store is
    left as it was. *)
Theorem out_of_order_throws (h : store) (this : ref) (o : Selector)
    (m k : Method) (value : string)
    (Hreach : reachable h)
    (Hthis : h !! this = Some o)
    (Hemitted : kind k ∈ currentOrder o)
    (Hrank : (rank m < rank k)%Z) :
  invoke m value this h = Some (Throw SelectorOrderError, h) /\
  JS.message SelectorOrderError
  = "Selector parts should be arranged in the following order: element, id, class, attribute, pseudo-class, pseudo-element".
Proof.
  split; [ | reflexivity ].
  rewrite (invoke_eq _ _ _ _ o Hthis).
  destruct (invariant_wellFormed h this o (reachable_invariant h Hreach) Hthis)
    as [R _].
  assert (V : orderRight (kind m) o = false).
  { unfold orderRight, JS.some. rewrite R.
    apply negb_false_iff, existsb_exists. exists (kind k). split.
    - now apply list_elem_of_In.
    - rewrite includes_after. now apply Z.ltb_lt. }
  unfold verdict. now rewrite V.
Qed.

Lemma out_of_order_throws_witness :
  invoke Id "main" 1 [cssSelectorBuilder.literal;
                       extended Class "container" cssSelectorBuilder.literal]
  = Some (Throw SelectorOrderError,
          [cssSelectorBuilder.literal;
           extended Class "container" cssSelectorBuilder.literal]) /\
  JS.message SelectorOrderError
  = "Selector parts should be arranged in the following order: element, id, class, attribute, pseudo-class, pseudo-element".
Proof.
  apply (out_of_order_throws _ 1 (extended Class "container" cssSelectorBuilder.literal)
           Id Class "main").
  - apply (reachable_call (CallFragment Class "container" facade) initial).
    + apply reachable_initial.
    + reflexivity.
  - reflexivity.
  - simpl. apply list_elem_of_here.
  - vm_compute. reflexivity.
Defined.

(** C3, as the code has it.  After a chain from the facade that ran to the
    end and contains a call of a guarded kind (element, id or
    pseudo-element), a further call of that kind always throws and leaves
    the store as it was.  The error is the uniqueness error when no kind of
    strictly greater rank was emitted by the chain, which is always so for
    pseudo-element and for a kind that is repeated directly; otherwise the
    order test, which runs first, throws the order error. *)
Theorem repeated_guarded_kind_throws (h h' : store) (l : ref)
    (calls : list (Method * string)) (m : Method) (value : string)
    (Hreach : reachable h)
    (Hchain : chain calls facade h = Some (Normal l, h'))
    (Honce : once m = true)
    (Hseen : m ∈ calls.*1) :
  invoke m value l h'
  = Some (Throw (if forallb (fun k => (rank k <=? rank m)%Z) calls.*1
                 then SelectorUniquenessError
                 else SelectorOrderError), h') /\
  (m = PseudoElement \/ (exists pre v, calls = pre ++ [(m, v)]) ->
   invoke m value l h' = Some (Throw SelectorUniquenessError, h')) /\
  JS.message SelectorUniquenessError
  = "Element, id and pseudo-element should not occur more then one time inside the selector".
Proof.
  destruct (reachable_invariant h Hreach) as [F _].
  destruct (chain_Normal_inv calls h h' facade l _ F Hchain) as (o' & Ho & El & _).
  destruct (chainOn_fields calls _ _ Ho) as (_ & Hc & Hr & Hf).
  assert (V : verdict m o'
              = Some (if forallb (fun k => (rank k <=? rank m)%Z) calls.*1
                      then SelectorUniquenessError else SelectorOrderError)).
  { unfold verdict. rewrite (orderRight_ranks m o' calls.*1 Hr Hc).
    destruct (forallb _ _); [ | reflexivity ].
    simpl. rewrite Hf, Honce.
    now rewrite (bool_decide_eq_true_2 _ Hseen), orb_true_r. }
  assert (E : invoke m value l h'
              = Some (Throw (if forallb (fun k => (rank k <=? rank m)%Z) calls.*1
                             then SelectorUniquenessError
                             else SelectorOrderError), h')).
  { rewrite (invoke_eq _ _ _ _ o' El). now rewrite V. }
  split; [ exact E | ]. split; [ | reflexivity ].
  intros C. rewrite E.
  assert (A : forallb (fun k => (rank k <=? rank m)%Z) calls.*1 = true).
  { destruct C as [-> | (pre & v & ->)].
    - apply forallb_forall. intros k _. now destruct k.
    - eapply last_call_ranks_highest. exact Ho. }
  now rewrite A.
Qed.

Lemma repeated_guarded_kind_throws_witness :
  let h' := [cssSelectorBuilder.literal;
             extended Element "a" cssSelectorBuilder.literal;
             extended Id "b" (extended Element "a" cssSelectorBuilder.literal)] in
  invoke Id "c" 2 h' = Some (Throw SelectorUniquenessError, h').
Proof.
  intros h'.
  refine (proj1 (repeated_guarded_kind_throws initial h' 2
                   [(Element, "a"); (Id, "b")] Id "c" _ _ _ _)).
  - apply reachable_initial.
  - reflexivity.
  - reflexivity.
  - apply list_elem_of_further, list_elem_of_here.
Defined.

(** C3 as stated fails: in [element('a').id('b').element('c')] the second
    call to [element] throws the order error, not the uniqueness error. *)
Lemma second_element_after_id_order_error :
  exists (l : ref) (h : store),
    chain [(Element, "a"); (Id, "b")] facade initial = Some (Normal l, h) /\
    invoke Element "c" l h = Some (Throw SelectorOrderError, h) /\
    invoke Element "c" l h <> Some (Throw SelectorUniquenessError, h).
Proof.
  eexists _, _. split; [ reflexivity | ]. split; [ reflexivity | ].
  discriminate.
Qed.

(** C4, as the code has it.  For two different objects [a] and [b],
    [stringify] on the value of [combine(a, c, b)] returns the text of [a],
    a space, [c], a space and the text of [b]; and for any third object [d]
    different from both, the nested [combine(combine(a, c1, b), c2, d)]
    renders the three texts joined the same way. *)
Theorem combine_renders_distinct (h : store) (a b this : ref)
    (c1 : string) (oa ob ot : Selector)
    (Ha : h !! a = Some oa) (Hb : h !! b = Some ob)
    (Hthis : h !! this = Some ot)
    (Hab : a <> b) :
  outcome
    ((l ← cssSelectorBuilder.combine a c1 b this;
      cssSelectorBuilder.stringify l)%exec h)
  = Some (Normal (result oa +:+ " " +:+ c1 +:+ " " +:+ result ob)) /\
  forall (d : ref) (c2 : string) (od : Selector),
    h !! d = Some od -> a <> d -> b <> d ->
    outcome
      ((inner ← cssSelectorBuilder.combine a c1 b this;
        l ← cssSelectorBuilder.combine inner c2 d this;
        cssSelectorBuilder.stringify l)%exec h)
    = Some (Normal ((result oa +:+ " " +:+ c1 +:+ " " +:+ result ob)
                    +:+ " " +:+ c2 +:+ " " +:+ result od)).
Proof.
  pose proof (combine_eq h a b this c1 oa ob ot Ha Hb Hthis) as E.
  cbv zeta in E. unfold secondOperand in E.
  destruct (decide (a = b)) as [ | _ ]; [ contradiction | ].
  set (txt := result oa +:+ " " +:+ c1 +:+ " " +:+ result ob) in *.
  set (h1 := <[b := cleared ob]> (<[a := cleared oa]> h)) in *.
  assert (Len : List.length h1 = List.length h)
    by (subst h1; now rewrite !length_insert).
  assert (La : a < List.length h) by in_store.
  assert (Lb : b < List.length h) by in_store.
  assert (Lt : this < List.length h) by in_store.
  assert (Einner : (h1 ++ [set_result txt ot]) !! List.length h
                   = Some (set_result txt ot))
    by (rewrite <- Len; apply list_lookup_middle; reflexivity).
  split.
  - unfold bind, outcome. rewrite E.
    now rewrite (stringify_eq _ _ _ Einner).
  - intros d c2 od Hd Had Hbd.
    assert (Ld : d < List.length h) by in_store.
    assert (Ed : (h1 ++ [set_result txt ot]) !! d = Some od).
    { apply lookup_app_l_Some. subst h1.
      now rewrite !list_lookup_insert_ne by congruence. }
    assert (Et : exists ot', (h1 ++ [set_result txt ot]) !! this = Some ot').
    { apply lookup_lt_is_Some. rewrite length_app, Len. lia. }
    destruct Et as [ot' Et].
    pose proof (combine_eq _ (List.length h) d this c2 _ od ot' Einner Ed Et) as E2.
    cbv zeta in E2. unfold secondOperand in E2.
    destruct (decide (List.length h = d)) as [ | _ ]; [ lia | ].
    unfold bind at 1. rewrite E. cbv beta iota.
    unfold bind, outcome. rewrite E2.
    match goal with
    | |- context [cssSelectorBuilder.stringify ?l (?s ++ [?o])] =>
        rewrite (stringify_eq (s ++ [o]) l o)
    end.
    + reflexivity.
    + apply list_lookup_middle. now rewrite !length_insert.
Qed.

Lemma combine_renders_distinct_witness :
  outcome
    ((l ← cssSelectorBuilder.combine facade ">" 1 facade;
      cssSelectorBuilder.stringify l)%exec
       [cssSelectorBuilder.literal;
        extended Element "li" cssSelectorBuilder.literal])
  = Some (Normal " > li") /\
  outcome
    ((a ← chain [(Element, "div"); (Id, "main")] facade;
      b ← chain [(Element, "table"); (Id, "data")] facade;
      d ← chain [(Element, "tr"); (PseudoClass, "nth-of-type(even)")] facade;
      inner ← cssSelectorBuilder.combine a "+" b facade;
      l ← cssSelectorBuilder.combine inner "~" d facade;
      cssSelectorBuilder.stringify l)%exec initial)
  = Some (Normal "div#main + table#data ~ tr:nth-of-type(even)").
Proof.
  split.
  - refine (proj1 (combine_renders_distinct
                     [cssSelectorBuilder.literal;
                      extended Element "li" cssSelectorBuilder.literal]
                     facade 1 facade ">"
                     cssSelectorBuilder.literal
                     (extended Element "li" cssSelectorBuilder.literal)
                     cssSelectorBuilder.literal _ _ _ _));
      [ reflexivity | reflexivity | reflexivity | discriminate ].
  - refine (proj2 (combine_renders_distinct
                     [cssSelectorBuilder.literal;
                      extended Element "div" cssSelectorBuilder.literal;
                      extended Id "main" (extended Element "div" cssSelectorBuilder.literal);
                      extended Element "table" cssSelectorBuilder.literal;
                      extended Id "data" (extended Element "table" cssSelectorBuilder.literal);
                      extended Element "tr" cssSelectorBuilder.literal;
                      extended PseudoClass "nth-of-type(even)"
                        (extended Element "tr" cssSelectorBuilder.literal)]
                     2 4 facade "+"
                     (extended Id "main" (extended Element "div" cssSelectorBuilder.literal))
                     (extended Id "data" (extended Element "table" cssSelectorBuilder.literal))
                     cssSelectorBuilder.literal _ _ _ _)
              6 "~"
              (extended PseudoClass "nth-of-type(even)"
                 (extended Element "tr" cssSelectorBuilder.literal)) _ _ _);
      (reflexivity || discriminate).
Defined.

(** C4 as stated fails when one object is passed as both operands: the
    first [stringify] empties it, so [combine(s, '+', s)] on a selector
    whose text is [a] renders [a + ] with nothing after the combinator. *)
Lemma combine_same_operand_twice :
  exists (s : ref) (h : store) (o : Selector),
    invoke Element "a" facade initial = Some (Normal s, h) /\
    h !! s = Some o /\
    outcome ((l ← cssSelectorBuilder.combine s "+" s facade;
              cssSelectorBuilder.stringify l)%exec h)
    = Some (Normal "a + ") /\
    outcome ((l ← cssSelectorBuilder.combine s "+" s facade;
              cssSelectorBuilder.stringify l)%exec h)
    <> Some (Normal (result o +:+ " " +:+ "+" +:+ " " +:+ result o)).
Proof.
  eexists _, _, _. split; [ reflexivity | ]. split; [ reflexivity | ].
  split; [ reflexivity | ]. vm_compute. discriminate.
Qed.




(** C6.  On an object of a reachable store, a fragment call whose kind is
    ranked no lower than the kinds already emitted and whose flag is not set
    returns a reference that held no object before; the store is the old
    store with one object added, which has the receiver's fields with the
    fragment's rendered form appended to the text, the kind appended to the
    kind sequence and the kind's flag set.  The receiver and every other
    object are left as they were, and the facade still holds the literal's
    values afterwards. *)
Theorem fragment_call_copies (h : store) (this : ref) (o : Selector)
    (m : Method) (value : string)
    (Hreach : reachable h)
    (Hthis : h !! this = Some o)
    (Hrank : forall k, kind k ∈ currentOrder o -> (rank k <= rank m)%Z)
    (Hflag : flag m o = false) :
  invoke m value this h
  = Some (Normal (List.length h), h ++ [extended m value o]) /\
  h !! List.length h = None /\
  (h ++ [extended m value o]) !! List.length h = Some (extended m value o) /\
  result (extended m value o) = result o +:+ rendered m value /\
  currentOrder (extended m value o) = currentOrder o ++ [kind m] /\
  (once m = true -> flag m (extended m value o) = true) /\
  (h ++ [extended m value o]) !! this = Some o /\
  (forall x, x < List.length h -> (h ++ [extended m value o]) !! x = h !! x) /\
  (h ++ [extended m value o]) !! facade = Some cssSelectorBuilder.literal.
Proof.
  destruct (reachable_invariant h Hreach) as [F _].
  destruct (invariant_wellFormed h this o (reachable_invariant h Hreach) Hthis)
    as [R [ks C]].
  assert (V : verdict m o = None).
  { apply verdict_None. split; [ | exact Hflag ].
    now apply (orderRight_true_iff m o ks R C). }
  pose proof (invoke_eq m value h this o Hthis) as E. rewrite V in E.
  split; [ exact E | ].
  split; [ now apply lookup_ge_None | ].
  split; [ now apply list_lookup_middle | ].
  split; [ reflexivity | ]. split; [ reflexivity | ].
  split; [ intros O; destruct m; (reflexivity || discriminate) | ].
  split; [ now apply lookup_app_l_Some | ].
  split; [ intros x L; now apply lookup_app_l | ].
  now apply lookup_app_l_Some.
Qed.

Lemma fragment_call_copies_witness :
  let o := extended Id "main" cssSelectorBuilder.literal in
  let h := [cssSelectorBuilder.literal; o] in
  let n := extended Class "container" o in
  invoke Class "container" 1 h = Some (Normal 2, h ++ [n]) /\
  h !! 2 = None /\
  (h ++ [n]) !! 2 = Some n /\
  result n = "#main.container" /\
  currentOrder n = ["id"; "class"] /\
  (once Class = true -> flag Class n = true) /\
  (h ++ [n]) !! 1 = Some o /\
  (forall x, x < 2 -> (h ++ [n]) !! x = h !! x) /\
  (h ++ [n]) !! facade = Some cssSelectorBuilder.literal.
Proof.
  intros o h n.
  apply (fragment_call_copies h 1 o Class "container").
  - apply (reachable_call (CallFragment Id "main" facade) initial).
    + apply reachable_initial.
    + reflexivity.
  - reflexivity.
  - intros k I.
    apply list_elem_of_singleton in I. destruct k; (discriminate || (vm_compute; discriminate)).
  - reflexivity.
Defined.

(** C7.  A fragment call that throws leaves the store as it was: no object
    is added and the receiver keeps its fields.  The error is one of the two
    validation errors, and a chain in which the call occurs ends with that
    error, whatever calls follow. *)
Theorem failed_call_changes_nothing (h h' : store) (this : ref)
    (m : Method) (value : string) (e : JS.Error)
    (Hcall : invoke m value this h = Some (Throw e, h')) :
  h' = h /\
  (e = SelectorOrderError \/ e = SelectorUniquenessError) /\
  forall pre rest start h0,
    chain pre start h0 = Some (Normal this, h) ->
    chain (pre ++ (m, value) :: rest) start h0 = Some (Throw e, h).
Proof.
  destruct (h !! this) as [o | ] eqn:E;
    [ | now rewrite invoke_None in Hcall ].
  pose proof Hcall as Hcall'.
  rewrite (invoke_eq _ _ _ _ o E) in Hcall'.
  assert (X : h' = h /\ verdict m o = Some e).
  { destruct (verdict m o) as [e' | ]; [ | discriminate ].
    injection Hcall' as He Hh. now subst. }
  destruct X as [-> V]. split; [ reflexivity | ]. split.
  - unfold verdict in V.
    destruct (negb _); [ left; congruence | ].
    destruct (flag m o); [ right; congruence | discriminate ].
  - intros pre rest start h0 Hpre.
    rewrite chain_app. unfold bind at 1. rewrite Hpre.
    simpl. unfold bind. now rewrite Hcall.
Qed.

Lemma failed_call_changes_nothing_witness :
  let h := [cssSelectorBuilder.literal;
            extended Element "div" cssSelectorBuilder.literal] in
  h = h /\
  (SelectorUniquenessError = SelectorOrderError \/
   SelectorUniquenessError = SelectorUniquenessError) /\
  forall pre rest start h0,
    chain pre start h0 = Some (Normal 1, h) ->
    chain (pre ++ (Element, "p") :: rest) start h0
    = Some (Throw SelectorUniquenessError, h).
Proof.
  intros h.
  apply (failed_call_changes_nothing h h 1 Element "p" SelectorUniquenessError).
  reflexivity.
Defined.

(** C8.  [Rectangle(w, h)] has [width] [w] and [height] [h], and [getArea]
    on it returns their product; [Rectangle(10, 20)] has area 200. *)
Theorem Rectangle_getArea (w h : float) :
  width (Rectangle w h) = w /\
  height (Rectangle w h) = h /\
  getArea (Rectangle w h) = (w * h)%float /\
  getArea (Rectangle 10 20) = 200%float.
Proof. repeat split. Qed.

(** C9.  [stringify] returns the receiver's text and leaves the receiver
    with an empty text and an empty kind sequence but with its three flags
    as they were; a fragment call of a kind whose flag is set then throws
    the uniqueness error on that receiver. *)
Theorem stringify_keeps_flags (h : store) (this : ref) (o : Selector)
    (Hthis : h !! this = Some o) :
  exists (h' : store) (o' : Selector),
    cssSelectorBuilder.stringify this h = Some (Normal (result o), h') /\
    h' !! this = Some o' /\
    result o' = "" /\
    currentOrder o' = [] /\
    isSelectorHaveElement o' = isSelectorHaveElement o /\
    isSelectorHaveId o' = isSelectorHaveId o /\
    isSelectorHavePseudoElement o' = isSelectorHavePseudoElement o /\
    forall m value,
      flag m o = true ->
      invoke m value this h' = Some (Throw SelectorUniquenessError, h').
Proof.
  exists (<[this := cleared o]> h), (cleared o).
  assert (E : <[this := cleared o]> h !! this = Some (cleared o)).
  { apply list_lookup_insert_eq. in_store. }
  split; [ now apply stringify_eq | ].
  split; [ exact E | ].
  repeat (split; [ reflexivity | ]).
  intros m value Fm.
  rewrite (invoke_eq _ _ _ _ (cleared o) E).
  unfold verdict.
  replace (orderRight (kind m) (cleared o)) with true by reflexivity.
  replace (flag m (cleared o)) with (flag m o) by (now destruct m).
  now rewrite Fm.
Qed.

Lemma stringify_keeps_flags_witness :
  exists (h' : store) (o' : Selector),
    cssSelectorBuilder.stringify 1
      [cssSelectorBuilder.literal; extended Id "main" cssSelectorBuilder.literal]
    = Some (Normal "#main", h') /\
    h' !! 1 = Some o' /\
    result o' = "" /\
    currentOrder o' = [] /\
    isSelectorHaveElement o' = false /\
    isSelectorHaveId o' = true /\
    isSelectorHavePseudoElement o' = false /\
    forall m value,
      flag m (extended Id "main" cssSelectorBuilder.literal) = true ->
      invoke m value 1 h' = Some (Throw SelectorUniquenessError, h').
Proof.
  apply (stringify_keeps_flags
           [cssSelectorBuilder.literal; extended Id "main" cssSelectorBuilder.literal]
           1 (extended Id "main" cssSelectorBuilder.literal)).
  reflexivity.
Defined.

(** C10.  [combine(a, c, b)] calls [stringify] on both operands: when it
    returns, the text of [a] and the text of [b] are empty in the store, and
    [stringify] on either of them returns the empty string. *)
Theorem combine_clears_operands (h : store) (a b this : ref) (c : string)
    (oa ob ot : Selector)
    (Ha : h !! a = Some oa) (Hb : h !! b = Some ob)
    (Hthis : h !! this = Some ot) :
  exists (l : ref) (h' : store),
    cssSelectorBuilder.combine a c b this h = Some (Normal l, h') /\
    result <$> h' !! a = Some "" /\
    result <$> h' !! b = Some "" /\
    outcome (cssSelectorBuilder.stringify a h') = Some (Normal "") /\
    outcome (cssSelectorBuilder.stringify b h') = Some (Normal "").
Proof.
  pose proof (combine_eq h a b this c oa ob ot Ha Hb Hthis) as E.
  cbv zeta in E.
  set (ob' := secondOperand a b oa ob) in *.
  set (txt := result oa +:+ " " +:+ c +:+ " " +:+ result ob') in *.
  assert (La : a < List.length h) by in_store.
  assert (Lb : b < List.length h) by in_store.
  assert (Eb : (<[b := cleared ob']> (<[a := cleared oa]> h)
                ++ [set_result txt ot]) !! b = Some (cleared ob')).
  { apply lookup_app_l_Some, list_lookup_insert_eq. now rewrite length_insert. }
  assert (Ea : exists oa', (<[b := cleared ob']> (<[a := cleared oa]> h)
                            ++ [set_result txt ot]) !! a = Some oa' /\
                           result oa' = "").
  { destruct (decide (a = b)) as [-> | N].
    - exists (cleared ob'). split; [ exact Eb | reflexivity ].
    - exists (cleared oa). split; [ | reflexivity ].
      apply lookup_app_l_Some.
      rewrite list_lookup_insert_ne by congruence.
      now apply list_lookup_insert_eq. }
  destruct Ea as (oa' & Ea & Ra).
  eexists _, _. split; [ exact E | ].
  rewrite Ea, Eb. simpl. rewrite Ra.
  repeat split.
  - unfold outcome. rewrite (stringify_eq _ _ _ Ea). simpl. now rewrite Ra.
  - unfold outcome. now rewrite (stringify_eq _ _ _ Eb).
Qed.

Lemma combine_clears_operands_witness :
  exists (l : ref) (h' : store),
    cssSelectorBuilder.combine 1 "+" 2 facade
      [cssSelectorBuilder.literal;
       extended Element "div" cssSelectorBuilder.literal;
       extended Element "p" cssSelectorBuilder.literal]
    = Some (Normal l, h') /\
    result <$> h' !! 1 = Some "" /\
    result <$> h' !! 2 = Some "" /\
    outcome (cssSelectorBuilder.stringify 1 h') = Some (Normal "") /\
    outcome (cssSelectorBuilder.stringify 2 h') = Some (Normal "").
Proof.
  apply (combine_clears_operands
           [cssSelectorBuilder.literal;
            extended Element "div" cssSelectorBuilder.literal;
            extended Element "p" cssSelectorBuilder.literal]
           1 2 facade "+"
           (extended Element "div" cssSelectorBuilder.literal)
           (extended Element "p" cssSelectorBuilder.literal)
           cssSelectorBuilder.literal);
    reflexivity.
Defined.

(** * Further properties of the builder *)

(** ** Kind names and counting *)

Lemma countKind_snoc (m k : Method) (ks : list Method) :
  countKind m (ks ++ [k]) = countKind m ks + (if decide (k = m) then 1 else 0).
Proof.
  unfold countKind. rewrite list.filter_app, length_app, filter_cons, filter_nil.
  now destruct (decide (k = m)).
Qed.

Lemma countKind_absent (m : Method) (ks : list Method) :
  m ∉ ks -> countKind m ks = 0.
Proof.
  intros N. unfold countKind.
  destruct (filter (fun k => k = m) ks) as [ | k rest ] eqn:E; [ reflexivity | ].
  exfalso. apply N.
  assert (I : k ∈ filter (fun k => k = m) ks) by (rewrite E; apply list_elem_of_here).
  apply list_elem_of_filter in I as [-> I]. exact I.
Qed.

Lemma occurrences_countKind (m : Method) (calls : list (Method * string)) :
  occurrences m calls = countKind m calls.*1.
Proof.
  induction calls as [ | [k value] rest IH ]; [ reflexivity | ].
  rewrite occurrences_cons, IH, fmap_cons. cbn [fst].
  unfold countKind. rewrite filter_cons.
  now destruct (decide (k = m)).
Qed.

Lemma nonDecreasing_snoc (l : list Z) (r : Z) :
  nonDecreasing l = true ->
  (forall x, x ∈ l -> (x <= r)%Z) ->
  nonDecreasing (l ++ [r]) = true.
Proof.
  induction l as [ | a l IH ]; intros S B; [ reflexivity | ].
  apply nonDecreasing_cons in S as [S Hd].
  assert (IH' : nonDecreasing (l ++ [r]) = true).
  { apply IH; [ exact S | ]. intros x I. apply B. now apply list_elem_of_further. }
  destruct l as [ | b l ].
  - simpl. rewrite andb_true_r. apply Z.leb_le, B, list_elem_of_here.
  - change (((a <=? b)%Z && nonDecreasing ((b :: l) ++ [r])) = true).
    rewrite IH', andb_true_r. apply Z.leb_le, Hd. reflexivity.
Qed.

(** ** The bookkeeping invariant *)

Lemma tracks_literal : tracks cssSelectorBuilder.literal [].
Proof.
  repeat split.
  - intros m _. unfold countKind. simpl. lia.
  - intros m _ I. now apply elem_of_nil in I.
Qed.

Lemma tracks_extended (m : Method) (value : string) (o : Selector)
    (ks : list Method) :
  tracks o ks -> verdict m o = None -> tracks (extended m value o) (ks ++ [m]).
Proof.
  intros (R & C & [S U] & F) V.
  apply verdict_None in V as [Vo Vf].
  rewrite (orderRight_ranks m o ks R C) in Vo.
  assert (B : forall k, k ∈ ks -> (rank k <= rank m)%Z).
  { intros k I. apply Z.leb_le.
    apply (proj1 (forallb_forall _ _) Vo). now apply list_elem_of_In. }
  split; [ exact R | ]. split; [ simpl; now rewrite C, fmap_app | ].
  split; [ split | ].
  - rewrite fmap_app. apply nonDecreasing_snoc; [ exact S | ].
    intros x I. apply list_elem_of_fmap in I as (k & -> & I). now apply B.
  - intros k O. rewrite countKind_snoc.
    destruct (decide (m = k)) as [<- | N]; [ | specialize (U k O); lia ].
    rewrite countKind_absent; [ lia | ].
    intros I. specialize (F m O I). congruence.
  - intros k O I.
    destruct (decide (k = m)) as [-> | N].
    + destruct m; (reflexivity || discriminate).
    + apply elem_of_app in I as [I | I].
      * specialize (F k O I). destruct k, m; simpl in *; congruence.
      * apply list_elem_of_singleton in I. contradiction.
Qed.

Lemma tracks_cleared (o : Selector) (ks : list Method) :
  tracks o ks -> tracks (cleared o) [].
Proof.
  intros (R & _). split; [ exact R | ]. split; [ reflexivity | ].
  split; [ split; [ reflexivity | ] | ].
  - intros m _. unfold countKind. simpl. lia.
  - intros m _ I. now apply elem_of_nil in I.
Qed.

Lemma tracks_set_result (v : string) (o : Selector) (ks : list Method) :
  tracks o ks -> tracks (set_result v o) ks.
Proof.
  intros (R & C & S & F). repeat split; try assumption; apply S.
Qed.

Lemma consistent_after (c : Call) (h h' : store) :
  consistent h -> after c h = Some h' -> consistent h'.
Proof.
  unfold consistent.
  intros I A. destruct c as [m value this | s1 comb s2 this | this]; simpl in A.
  - destruct (h !! this) as [o | ] eqn:E;
      [ | now rewrite invoke_None in A ].
    rewrite (invoke_eq _ _ _ _ o E) in A. simpl in A. injection A as <-.
    destruct (verdict m o) eqn:V; simpl; [ exact I | ].
    apply Forall_app. split; [ exact I | ].
    apply Forall_singleton.
    destruct (Forall_lookup_1 _ _ _ _ I E) as [ks T].
    exists (ks ++ [m]). now apply tracks_extended.
  - destruct (h !! s1) as [o1 | ] eqn:E1; [ | discriminate ].
    destruct (h !! s2) as [o2 | ] eqn:E2; [ | discriminate ].
    simpl in A.
    destruct (h !! this) as [ot | ] eqn:Et;
      [ | now rewrite combine_None in A ].
    rewrite (combine_eq _ _ _ _ _ o1 o2 ot E1 E2 Et) in A.
    simpl in A. injection A as <-.
    destruct (Forall_lookup_1 _ _ _ _ I E1) as [k1 T1].
    destruct (Forall_lookup_1 _ _ _ _ I E2) as [k2 T2].
    destruct (Forall_lookup_1 _ _ _ _ I Et) as [kt Tt].
    apply Forall_app. split.
    + apply Forall_insert; [ apply Forall_insert; [ exact I | ] | ].
      * exists []. eapply tracks_cleared. exact T1.
      * exists []. unfold secondOperand.
        destruct (decide (s1 = s2)); eapply tracks_cleared; eauto using tracks_cleared.
    + apply Forall_singleton. exists kt. now apply tracks_set_result.
  - destruct (h !! this) as [o | ] eqn:E;
      [ | now rewrite stringify_None in A ].
    rewrite (stringify_eq _ _ o E) in A. simpl in A. injection A as <-.
    destruct (Forall_lookup_1 _ _ _ _ I E) as [ks T].
    apply Forall_insert; [ exact I | ].
    exists []. eapply tracks_cleared. exact T.
Qed.

Lemma reachable_consistent (h : store) : reachable h -> consistent h.
Proof.
  induction 1 as [ | c h h' _ IH A ].
  - apply Forall_singleton. exists []. apply tracks_literal.
  - eapply consistent_after; eassumption.
Qed.

Lemma reachable_tracks (h : store) (this : ref) (o : Selector) :
  reachable h -> h !! this = Some o -> exists ks, tracks o ks.
Proof.
  intros R E. exact (Forall_lookup_1 _ _ _ _ (reachable_consistent h R) E).
Qed.

Lemma chainOn_tracks (calls : list (Method * string)) :
  forall (o o' : Selector) (ks : list Method),
    tracks o ks -> chainOn calls o = Normal o' -> tracks o' (ks ++ calls.*1).
Proof.
  induction calls as [ | [m value] rest IH ]; intros o o' ks T H; simpl in H.
  - injection H as <-. now rewrite app_nil_r.
  - destruct (verdict m o) eqn:V; [ discriminate | ].
    rewrite fmap_cons. cbn [fst].
    replace (ks ++ m :: rest.*1) with ((ks ++ [m]) ++ rest.*1)
      by now rewrite <- app_assoc.
    apply (IH (extended m value o)); [ | exact H ].
    now apply tracks_extended.
Qed.

(** A valid chain runs to the end on any object that has emitted nothing and
    whose set flags guard no kind of the chain; the text is appended. *)
Lemma chainOn_fresh (calls : list (Method * string)) (o : Selector) :
  rightOrder o = rightOrder cssSelectorBuilder.literal ->
  currentOrder o = [] ->
  (forall m, flag m o = true -> occurrences m calls = 0) ->
  validChain calls ->
  exists o', chainOn calls o = Normal o' /\ result o' = result o +:+ text calls.
Proof.
  intros R C F (S & UE & UI & UP).
  destruct (chainOn_valid calls o [] R C) as [o' Ho].
  - intros k c I. now apply elem_of_nil in I.
  - exact S.
  - exact F.
  - intros m O. destruct m; try discriminate; assumption.
  - exists o'. split; [ exact Ho | ].
    now destruct (chainOn_fields calls _ _ Ho) as (Hr & _).
Qed.

(** X1.  On an object of a reachable store a fragment call returns exactly
    when no kind in [currentOrder] ranks higher than the call's kind and the
    flag the method tests is not set. *)
Theorem fragment_call_returns_iff (h : store) (this : ref) (o : Selector)
    (m : Method) (value : string)
    (Hreach : reachable h) (Hthis : h !! this = Some o) :
  (exists l h', invoke m value this h = Some (Normal l, h')) <->
  ((forall k, kind k ∈ currentOrder o -> (rank k <= rank m)%Z) /\
   flag m o = false).
Proof.
  destruct (reachable_tracks h this o Hreach Hthis) as (ks & R & C & _).
  rewrite <- (orderRight_true_iff m o ks R C), <- verdict_None.
  rewrite (invoke_eq _ _ _ _ o Hthis). split.
  - intros (l & h' & E). destruct (verdict m o); [ discriminate | reflexivity ].
  - intros ->. now eexists _, _.
Qed.

Lemma fragment_call_returns_iff_witness :
  (exists l h', invoke Class "container" facade initial = Some (Normal l, h')) <->
  ((forall k, kind k ∈ currentOrder cssSelectorBuilder.literal ->
              (rank k <= rank Class)%Z) /\
   flag Class cssSelectorBuilder.literal = false).
Proof.
  apply (fragment_call_returns_iff initial facade cssSelectorBuilder.literal
           Class "container").
  - apply reachable_initial.
  - reflexivity.
Defined.

Lemma indexOfFrom_absent (arr : list string) (x : string) (i : Z) :
  x ∉ arr -> JS.indexOfFrom arr x i = (-1)%Z.
Proof.
  revert i. induction arr as [ | y arr IH ]; intros i N; [ reflexivity | ].
  simpl. destruct (String.eqb_spec y x) as [-> | D].
  - exfalso. apply N, list_elem_of_here.
  - apply IH. intros I. apply N. now apply list_elem_of_further.
Qed.

(** X2.  [isOrderRight] never throws and never changes the store.  For a
    kind name of [rightOrder] it returns true exactly when no kind in
    [currentOrder] ranks higher; for any other name [indexOf] gives -1, the
    pattern is the whole of [rightOrder], and it returns true exactly when
    [currentOrder] is empty. *)
Theorem isOrderRight_returns (h : store) (this : ref) (o : Selector)
    (name : string)
    (Hreach : reachable h) (Hthis : h !! this = Some o) :
  exists b : bool,
    cssSelectorBuilder.isOrderRight name this h = Some (Normal b, h) /\
    (forall m, name = kind m ->
       (b = true <-> forall k, kind k ∈ currentOrder o -> (rank k <= rank m)%Z)) /\
    (name ∉ rightOrder cssSelectorBuilder.literal ->
       (b = true <-> currentOrder o = [])).
Proof.
  destruct (reachable_tracks h this o Hreach Hthis) as (ks & R & C & _).
  exists (orderRight name o).
  split; [ now apply isOrderRight_eq | ]. split.
  - intros m ->. now apply (orderRight_true_iff m o ks).
  - intros N. unfold orderRight, JS.indexOf. rewrite R.
    rewrite (indexOfFrom_absent _ _ _ N), C.
    destruct ks as [ | k ks ]; [ now split | ].
    rewrite fmap_cons. split; [ | discriminate ].
    unfold JS.some. cbn [existsb].
    replace (JS.includes _ (kind k)) with true by (now destruct k).
    discriminate.
Qed.

Lemma isOrderRight_returns_witness :
  exists b : bool,
    cssSelectorBuilder.isOrderRight "span" 1
      [cssSelectorBuilder.literal; extended Class "c" cssSelectorBuilder.literal]
    = Some (Normal b,
            [cssSelectorBuilder.literal; extended Class "c" cssSelectorBuilder.literal]) /\
    (forall m, "span" = kind m ->
       (b = true <->
        forall k, kind k ∈ currentOrder (extended Class "c" cssSelectorBuilder.literal) ->
                  (rank k <= rank m)%Z)) /\
    ("span" ∉ rightOrder cssSelectorBuilder.literal ->
       (b = true <-> currentOrder (extended Class "c" cssSelectorBuilder.literal) = [])).
Proof.
  apply (isOrderRight_returns
           [cssSelectorBuilder.literal; extended Class "c" cssSelectorBuilder.literal]
           1 (extended Class "c" cssSelectorBuilder.literal) "span").
  - apply (reachable_call (CallFragment Class "c" facade) initial).
    + apply reachable_initial.
    + reflexivity.
  - reflexivity.
Defined.

(** X3.  From the facade of a reachable store a chain of fragment calls
    runs to the end exactly when its kinds are in non-decreasing rank order
    with at most one element, one id and one pseudo-element. *)
Theorem chain_returns_iff_valid (h : store) (calls : list (Method * string))
    (Hreach : reachable h) :
  (exists l h', chain calls facade h = Some (Normal l, h')) <-> validChain calls.
Proof.
  destruct (reachable_invariant h Hreach) as [F _]. split.
  - intros (l & h' & E).
    destruct (chain_Normal_inv calls h h' facade l _ F E) as (o' & Ho & _).
    destruct (chainOn_tracks calls _ _ [] tracks_literal Ho) as (_ & _ & [S U] & _).
    simpl in S, U. split; [ exact S | ].
    rewrite !occurrences_countKind. repeat split; now apply U.
  - intros V. destruct (chainOn_validChain calls V) as [o' Ho].
    destruct (chain_eq calls h facade _ F) as [ext X].
    rewrite Ho in X. destruct X as [l [X _]]. now exists l, (h ++ ext).
Qed.

Lemma chain_returns_iff_valid_witness :
  (exists l h', chain [(Element, "a"); (Id, "b")] facade initial
                = Some (Normal l, h'))
  <-> validChain [(Element, "a"); (Id, "b")].
Proof.
  apply (chain_returns_iff_valid initial [(Element, "a"); (Id, "b")]).
  apply reachable_initial.
Defined.

(** X4.  In every reachable store, every object's [currentOrder] spells a
    sequence of kinds in non-decreasing rank order in which element, id and
    pseudo-element occur at most once, each with its flag set; and its
    [rightOrder] is the literal's. *)
Theorem reachable_objects_orderly (h : store) (this : ref) (o : Selector)
    (Hreach : reachable h) (Hthis : h !! this = Some o) :
  exists ks : list Method,
    currentOrder o = kind <$> ks /\
    rightOrder o = rightOrder cssSelectorBuilder.literal /\
    nonDecreasing (rank <$> ks) = true /\
    forall m, once m = true ->
              countKind m ks <= 1 /\ (m ∈ ks -> flag m o = true).
Proof.
  destruct (reachable_tracks h this o Hreach Hthis) as (ks & R & C & [S U] & F).
  exists ks. repeat split; auto.
Qed.

Lemma reachable_objects_orderly_witness :
  exists ks : list Method,
    currentOrder (extended Id "main" cssSelectorBuilder.literal) = kind <$> ks /\
    rightOrder (extended Id "main" cssSelectorBuilder.literal)
    = rightOrder cssSelectorBuilder.literal /\
    nonDecreasing (rank <$> ks) = true /\
    forall m, once m = true ->
              countKind m ks <= 1 /\
              (m ∈ ks -> flag m (extended Id "main" cssSelectorBuilder.literal) = true).
Proof.
  apply (reachable_objects_orderly
           [cssSelectorBuilder.literal; extended Id "main" cssSelectorBuilder.literal]
           1).
  - apply (reachable_call (CallFragment Id "main" facade) initial).
    + apply reachable_initial.
    + reflexivity.
  - reflexivity.
Defined.

(** X5.  The value of [combine] called on the facade carries the facade's
    empty bookkeeping, not that of its operands: for two different operands
    any valid chain of fragment calls on it runs to the end, and [stringify]
    then returns the combined text followed by the text of the chain. *)
Theorem combined_selector_extends (h : store) (a b : ref) (c : string)
    (oa ob : Selector) (calls : list (Method * string))
    (Hreach : reachable h)
    (Ha : h !! a = Some oa) (Hb : h !! b = Some ob) (Hab : a <> b)
    (Hvalid : validChain calls) :
  outcome
    ((l ← cssSelectorBuilder.combine a c b facade;
      chainStringify calls l)%exec h)
  = Some (Normal ((result oa +:+ " " +:+ c +:+ " " +:+ result ob) +:+ text calls)).
Proof.
  destruct (reachable_invariant h Hreach) as [F _].
  pose proof (combine_eq h a b facade c oa ob _ Ha Hb F) as E.
  cbv zeta in E. unfold secondOperand in E.
  destruct (decide (a = b)) as [ | _ ]; [ contradiction | ].
  set (txt := result oa +:+ " " +:+ c +:+ " " +:+ result ob) in *.
  set (h1 := <[b := cleared ob]> (<[a := cleared oa]> h)) in *.
  assert (El : (h1 ++ [set_result txt cssSelectorBuilder.literal]) !! List.length h
               = Some (set_result txt cssSelectorBuilder.literal)).
  { apply list_lookup_middle. subst h1. now rewrite !length_insert. }
  destruct (chainOn_fresh calls (set_result txt cssSelectorBuilder.literal))
    as (o' & Ho & Hr); try reflexivity; [ intros m Fm; now destruct m | exact Hvalid | ].
  unfold bind at 1. rewrite E. cbv beta iota.
  rewrite (chainStringify_outcome calls _ _ _ El), Ho.
  now rewrite Hr.
Qed.

Lemma combined_selector_extends_witness :
  outcome
    ((l ← cssSelectorBuilder.combine 1 ">" 2 facade;
      chainStringify [(Class, "x"); (PseudoClass, "hover")] l)%exec
       [cssSelectorBuilder.literal;
        extended Element "ul" cssSelectorBuilder.literal;
        extended Element "li" cssSelectorBuilder.literal])
  = Some (Normal "ul > li.x:hover").
Proof.
  apply (combined_selector_extends
           [cssSelectorBuilder.literal;
            extended Element "ul" cssSelectorBuilder.literal;
            extended Element "li" cssSelectorBuilder.literal]
           1 2 ">"
           (extended Element "ul" cssSelectorBuilder.literal)
           (extended Element "li" cssSelectorBuilder.literal)
           [(Class, "x"); (PseudoClass, "hover")]).
  - apply (reachable_call (CallFragment Element "li" facade)
             [cssSelectorBuilder.literal;
              extended Element "ul" cssSelectorBuilder.literal]).
    + apply (reachable_call (CallFragment Element "ul" facade) initial).
      * apply reachable_initial.
      * reflexivity.
    + reflexivity.
  - reflexivity.
  - reflexivity.
  - lia.
  - unfold validChain, occurrences. simpl. repeat split; lia.
Defined.

(** X6.  After [stringify], an object of a reachable store starts over: a
    valid chain of fragment calls on it that uses no kind whose flag the
    object still has set runs to the end, and [stringify] then returns the
    text of that chain alone. *)
Theorem rendered_object_starts_over (h : store) (this : ref) (o : Selector)
    (calls : list (Method * string))
    (Hreach : reachable h) (Hthis : h !! this = Some o)
    (Hvalid : validChain calls)
    (Hflags : forall m, flag m o = true -> occurrences m calls = 0) :
  outcome
    ((_ ← cssSelectorBuilder.stringify this;
      chainStringify calls this)%exec h)
  = Some (Normal (text calls)).
Proof.
  destruct (reachable_tracks h this o Hreach Hthis) as (ks & R & _).
  assert (E : <[this := cleared o]> h !! this = Some (cleared o)).
  { apply list_lookup_insert_eq. in_store. }
  destruct (chainOn_fresh calls (cleared o)) as (o' & Ho & Hr);
    [ exact R | reflexivity | | exact Hvalid | ].
  { intros m Fm. apply Hflags. now destruct m. }
  unfold bind at 1. rewrite (stringify_eq _ _ o Hthis). cbv beta iota.
  rewrite (chainStringify_outcome calls _ _ _ E), Ho.
  now rewrite Hr.
Qed.

Lemma rendered_object_starts_over_witness :
  outcome
    ((_ ← cssSelectorBuilder.stringify 1;
      chainStringify [(Element, "p"); (Class, "x")] 1)%exec
       [cssSelectorBuilder.literal; extended Id "main" cssSelectorBuilder.literal])
  = Some (Normal "p.x").
Proof.
  apply (rendered_object_starts_over
           [cssSelectorBuilder.literal; extended Id "main" cssSelectorBuilder.literal]
           1 (extended Id "main" cssSelectorBuilder.literal)
           [(Element, "p"); (Class, "x")]).
  - apply (reachable_call (CallFragment Id "main" facade) initial).
    + apply reachable_initial.
    + reflexivity.
  - reflexivity.
  - unfold validChain, occurrences. simpl. repeat split; lia.
  - intros m Fm. destruct m; try discriminate. reflexivity.
Defined.

(** X7.  [stringify] writes its receiver only: the store keeps its size and
    every other object is left as it was. *)
Theorem stringify_frame (h : store) (this : ref) (o : Selector)
    (Hthis : h !! this = Some o) :
  exists h' : store,
    cssSelectorBuilder.stringify this h = Some (Normal (result o), h') /\
    List.length h' = List.length h /\
    forall x, x <> this -> h' !! x = h !! x.
Proof.
  exists (<[this := cleared o]> h).
  split; [ now apply stringify_eq | ].
  split; [ apply length_insert | ].
  intros x N. now apply list_lookup_insert_ne.
Qed.

Lemma stringify_frame_witness :
  exists h' : store,
    cssSelectorBuilder.stringify 1
      [cssSelectorBuilder.literal; extended Id "main" cssSelectorBuilder.literal]
    = Some (Normal "#main", h') /\
    List.length h' = 2 /\
    forall x, x <> 1 ->
      h' !! x
      = [cssSelectorBuilder.literal;
         extended Id "main" cssSelectorBuilder.literal] !! x.
Proof.
  apply (stringify_frame
           [cssSelectorBuilder.literal; extended Id "main" cssSelectorBuilder.literal]
           1 (extended Id "main" cssSelectorBuilder.literal)).
  reflexivity.
Defined.

(** X8.  [combine] validates nothing and never throws: for any combinator
    string it returns a reference that held no object before, adds that one
    object to the store, and leaves every object other than its two operands
    as it was; the receiver is changed only if it is itself an operand. *)
Theorem combine_frame (h : store) (a b this : ref) (c : string)
    (oa ob ot : Selector)
    (Ha : h !! a = Some oa) (Hb : h !! b = Some ob)
    (Hthis : h !! this = Some ot) :
  exists (l : ref) (h' : store),
    cssSelectorBuilder.combine a c b this h = Some (Normal l, h') /\
    h !! l = None /\
    List.length h' = S (List.length h) /\
    (forall x, x <> a -> x <> b -> x < List.length h -> h' !! x = h !! x) /\
    (this <> a -> this <> b -> h' !! this = Some ot).
Proof.
  pose proof (combine_eq h a b this c oa ob ot Ha Hb Hthis) as E.
  cbv zeta in E.
  eexists _, _. split; [ exact E | ].
  assert (Fr : forall x, x <> a -> x <> b -> x < List.length h ->
               (<[b := cleared (secondOperand a b oa ob)]> (<[a := cleared oa]> h)
                ++ [set_result
                      (result oa +:+ " " +:+ c +:+ " "
                       +:+ result (secondOperand a b oa ob)) ot]) !! x
               = h !! x).
  { intros x Na Nb L.
    rewrite lookup_app_l by now rewrite !length_insert.
    now rewrite !list_lookup_insert_ne by congruence. }
  split; [ now apply lookup_ge_None | ].
  split; [ rewrite length_app, !length_insert; simpl; lia | ].
  split; [ exact Fr | ].
  intros Na Nb. rewrite Fr; [ exact Hthis | assumption .. | in_store ].
Qed.

Lemma combine_frame_witness :
  exists (l : ref) (h' : store),
    cssSelectorBuilder.combine 1 "not a combinator" 2 facade
      [cssSelectorBuilder.literal;
       extended Element "div" cssSelectorBuilder.literal;
       extended Element "p" cssSelectorBuilder.literal]
    = Some (Normal l, h') /\
    [cssSelectorBuilder.literal;
     extended Element "div" cssSelectorBuilder.literal;
     extended Element "p" cssSelectorBuilder.literal] !! l = None /\
    List.length h' = 4 /\
    (forall x, x <> 1 -> x <> 2 -> x < 3 ->
       h' !! x
       = [cssSelectorBuilder.literal;
          extended Element "div" cssSelectorBuilder.literal;
          extended Element "p" cssSelectorBuilder.literal] !! x) /\
    (facade <> 1 -> facade <> 2 -> h' !! facade = Some cssSelectorBuilder.literal).
Proof.
  apply (combine_frame
           [cssSelectorBuilder.literal;
            extended Element "div" cssSelectorBuilder.literal;
            extended Element "p" cssSelectorBuilder.literal]
           1 2 facade "not a combinator"
           (extended Element "div" cssSelectorBuilder.literal)
           (extended Element "p" cssSelectorBuilder.literal)
           cssSelectorBuilder.literal);
    reflexivity.
Defined.

(** X9.  A chain of fragment calls, whether it returns or throws, leaves
    its receiver as it was, so what a later chain from the same receiver
    renders or throws is not affected by it: partial selectors can be
    branched. *)
Theorem chains_branch_independently (h : store) (this : ref) (o : Selector)
    (calls1 : list (Method * string))
    (Hthis : h !! this = Some o) :
  exists (r : completion ref) (h1 : store),
    chain calls1 this h = Some (r, h1) /\
    h1 !! this = Some o /\
    forall calls2,
      outcome (chainStringify calls2 this h1)
      = outcome (chainStringify calls2 this h).
Proof.
  destruct (chain_eq calls1 h this o Hthis) as [ext X].
  assert (E1 : (h ++ ext) !! this = Some o) by now apply lookup_app_l_Some.
  assert (Same : forall calls2,
            outcome (chainStringify calls2 this (h ++ ext))
            = outcome (chainStringify calls2 this h)).
  { intros calls2.
    now rewrite (chainStringify_outcome calls2 _ _ _ E1),
                (chainStringify_outcome calls2 _ _ _ Hthis). }
  destruct (chainOn calls1 o) as [o' | e].
  - destruct X as [l [X _]]. now exists (Normal l), (h ++ ext).
  - now exists (Throw e), (h ++ ext).
Qed.

Lemma chains_branch_independently_witness :
  exists (r : completion ref) (h1 : store),
    chain [(Class, "a"); (Id, "b")] 1
      [cssSelectorBuilder.literal; extended Element "div" cssSelectorBuilder.literal]
    = Some (r, h1) /\
    h1 !! 1 = Some (extended Element "div" cssSelectorBuilder.literal) /\
    forall calls2,
      outcome (chainStringify calls2 1 h1)
      = outcome (chainStringify calls2 1
                   [cssSelectorBuilder.literal;
                    extended Element "div" cssSelectorBuilder.literal]).
Proof.
  apply (chains_branch_independently
           [cssSelectorBuilder.literal; extended Element "div" cssSelectorBuilder.literal]
           1 (extended Element "div" cssSelectorBuilder.literal)
           [(Class, "a"); (Id, "b")]).
  reflexivity.
Defined.

(** X10.  On an object of a reachable store, [class], [attr] and
    [pseudoClass] throw nothing but the order error, and [pseudoElement]
    throws nothing but the uniqueness error. *)
Theorem errors_by_method (h h' : store) (this : ref) (o : Selector)
    (m : Method) (value : string) (e : JS.Error)
    (Hreach : reachable h) (Hthis : h !! this = Some o)
    (Hthrow : invoke m value this h = Some (Throw e, h')) :
  (once m = false -> e = SelectorOrderError) /\
  (m = PseudoElement -> e = SelectorUniquenessError).
Proof.
  destruct (reachable_tracks h this o Hreach Hthis) as (ks & R & C & _).
  rewrite (invoke_eq _ _ _ _ o Hthis) in Hthrow.
  assert (V : verdict m o = Some e).
  { destruct (verdict m o); [ | discriminate ]. now injection Hthrow as -> _. }
  unfold verdict in V. split.
  - intros O. destruct (orderRight (kind m) o); simpl in V.
    + destruct m; discriminate.
    + congruence.
  - intros ->.
    assert (A : orderRight (kind PseudoElement) o = true).
    { rewrite (orderRight_ranks _ o ks R C).
      apply forallb_forall. intros k _. now destruct k. }
    rewrite A in V. simpl in V.
    destruct (isSelectorHavePseudoElement o); congruence.
Qed.

Lemma errors_by_method_witness :
  (once Class = false -> SelectorOrderError = SelectorOrderError) /\
  (Class = PseudoElement -> SelectorOrderError = SelectorUniquenessError).
Proof.
  apply (errors_by_method
           [cssSelectorBuilder.literal;
            extended PseudoClass "hover" cssSelectorBuilder.literal]
           [cssSelectorBuilder.literal;
            extended PseudoClass "hover" cssSelectorBuilder.literal]
           1 (extended PseudoClass "hover" cssSelectorBuilder.literal)
           Class "x" SelectorOrderError).
  - apply (reachable_call (CallFragment PseudoClass "hover" facade) initial).
    + apply reachable_initial.
    + reflexivity.
  - reflexivity.
  - reflexivity.
Defined.

(** X11.  Nothing can follow a pseudo-element: on an object of a reachable
    store whose [currentOrder] holds [pseudo-element], every fragment call
    throws and leaves the store as it was; [pseudoElement] throws the
    uniqueness error and the five other methods the order error. *)
Theorem pseudo_element_is_last (h : store) (this : ref) (o : Selector)
    (m : Method) (value : string)
    (Hreach : reachable h) (Hthis : h !! this = Some o)
    (Hpseudo : "pseudo-element" ∈ currentOrder o) :
  invoke m value this h
  = Some (Throw (if decide (m = PseudoElement)
                 then SelectorUniquenessError
                 else SelectorOrderError), h).
Proof.
  destruct (reachable_tracks h this o Hreach Hthis) as (ks & R & C & _ & F).
  assert (I : PseudoElement ∈ ks).
  { apply (list_elem_of_fmap_inj kind). now rewrite <- C. }
  rewrite (invoke_eq _ _ _ _ o Hthis). unfold verdict.
  rewrite (orderRight_ranks m o ks R C).
  destruct (decide (m = PseudoElement)) as [-> | N].
  - assert (A : forallb (fun k => (rank k <=? rank PseudoElement)%Z) ks = true).
    { apply forallb_forall. intros k _. now destruct k. }
    pose proof (F PseudoElement eq_refl I) as Fp. simpl in Fp.
    rewrite A. simpl. now rewrite Fp.
  - assert (A : forallb (fun k => (rank k <=? rank m)%Z) ks = false).
    { apply not_true_is_false. intros A.
      assert (L : (rank PseudoElement <=? rank m)%Z = true).
      { apply (proj1 (forallb_forall _ _) A). now apply list_elem_of_In. }
      destruct m; (discriminate || congruence). }
    now rewrite A.
Qed.

Lemma pseudo_element_is_last_witness :
  invoke PseudoClass "hover" 1
    [cssSelectorBuilder.literal;
     extended PseudoElement "after" cssSelectorBuilder.literal]
  = Some (Throw SelectorOrderError,
          [cssSelectorBuilder.literal;
           extended PseudoElement "after" cssSelectorBuilder.literal]).
Proof.
  apply (pseudo_element_is_last
           [cssSelectorBuilder.literal;
            extended PseudoElement "after" cssSelectorBuilder.literal]
           1 (extended PseudoElement "after" cssSelectorBuilder.literal)
           PseudoClass "hover").
  - apply (reachable_call (CallFragment PseudoElement "after" facade) initial).
    + apply reachable_initial.
    + reflexivity.
  - reflexivity.
  - apply list_elem_of_here.
Defined.

(** X12.  An element can only come first: on an object of a reachable
    store, [element] returns exactly when [currentOrder] is empty and the
    element flag is not set. *)
Theorem element_only_first (h : store) (this : ref) (o : Selector)
    (value : string)
    (Hreach : reachable h) (Hthis : h !! this = Some o) :
  (exists l h', invoke Element value this h = Some (Normal l, h')) <->
  (currentOrder o = [] /\ isSelectorHaveElement o = false).
Proof.
  destruct (reachable_tracks h this o Hreach Hthis) as (ks & R & C & _ & F).
  rewrite (invoke_eq _ _ _ _ o Hthis). split.
  - intros (l & h' & E).
    assert (V : verdict Element o = None)
      by (destruct (verdict Element o); [ discriminate | reflexivity ]).
    apply verdict_None in V as [Vo Vf]. simpl in Vf. split; [ | exact Vf ].
    rewrite (orderRight_ranks Element o ks R C) in Vo.
    destruct ks as [ | k ks ]; [ exact C | exfalso ].
    simpl in Vo. apply andb_prop in Vo as [Vk _].
    assert (k = Element) as -> by (destruct k; (reflexivity || discriminate)).
    specialize (F Element eq_refl (list_elem_of_here _ _)). simpl in F. congruence.
  - intros [Hc Hf].
    assert (V : verdict Element o = None).
    { apply verdict_None. split; [ | exact Hf ].
      unfold orderRight. now rewrite Hc. }
    rewrite V. now eexists _, _.
Qed.

Lemma element_only_first_witness :
  (exists l h', invoke Element "div" facade initial = Some (Normal l, h')) <->
  (currentOrder cssSelectorBuilder.literal = [] /\
   isSelectorHaveElement cssSelectorBuilder.literal = false).
Proof.
  apply (element_only_first initial facade cssSelectorBuilder.literal "div").
  - apply reachable_initial.
  - reflexivity.
Defined.

(** X13.  Rendering the facade itself is harmless: in a reachable store
    [stringify] on the facade returns the empty string and leaves the whole
    store as it was. *)
Theorem stringify_facade_harmless (h : store) (Hreach : reachable h) :
  cssSelectorBuilder.stringify facade h = Some (Normal "", h).
Proof.
  destruct (reachable_invariant h Hreach) as [F _].
  rewrite (stringify_eq _ _ _ F).
  now rewrite (list_insert_id h facade (cleared cssSelectorBuilder.literal) F).
Qed.

Lemma stringify_facade_harmless_witness :
  cssSelectorBuilder.stringify facade
    [cssSelectorBuilder.literal; extended Id "main" cssSelectorBuilder.literal]
  = Some (Normal "",
          [cssSelectorBuilder.literal; extended Id "main" cssSelectorBuilder.literal]).
Proof.
  apply (stringify_facade_harmless
           [cssSelectorBuilder.literal; extended Id "main" cssSelectorBuilder.literal]).
  apply (reachable_call (CallFragment Id "main" facade) initial).
  - apply reachable_initial.
  - reflexivity.
Defined.
